(** * Swap routing and concentrated-liquidity pricing: a shallow embedding

    The development follows the TypeScript sources of the math and pools
    packages: the fixed-point type the sources compute with, the tick math
    of [tick.ts], the swap-step helpers of [math.ts], the quote loop of
    [quotes.ts] and the router ([getCandidateRoutes],
    [getOptimizedRoutesByTokenIn], [findBestSplitTokenIn]). *)

From Stdlib Require Import ZArith List String Bool Lia Permutation Sorted.
Import ListNotations.
Local Open Scope string_scope.
Local Open Scope list_scope.
Local Open Scope Z_scope.

(** ** Thrown errors

    A function that may [throw] returns a [Result]; the constructors of [exn]
    are the error classes the sources raise.  A message built from a template
    string is kept up to its fixed prefix. *)

Inductive exn : Type :=
| Error (msg : string)
| TickOverflowError (msg : string)
| NotEnoughLiquidityError
| NoRouteError.

(** [OutOfFuel] is not an outcome of the program: it marks a [while] loop of
    the model cut off by its iteration bound.  The theorems below establish
    [Ok] or [Throw] outcomes, so the bound was never the reason. *)
Inductive Result (A : Type) : Type :=
| Ok (a : A)
| Throw (e : exn)
| OutOfFuel.
Arguments Ok {A} a.
Arguments Throw {A} e.
Arguments OutOfFuel {A}.

Definition bind {A B} (r : Result A) (k : A -> Result B) : Result B :=
  match r with
  | Ok a => k a
  | Throw e => Throw e
  | OutOfFuel => OutOfFuel
  end.

Notation "'let?' x ':=' r 'in' k" := (bind r (fun x => k))
  (at level 10, x pattern, r at level 100, k at level 200).

Definition guard (b : bool) (e : exn) : Result unit :=
  if b then Throw e else Ok tt.

(** ** Integers and fixed-point decimals

    [Int] is the arbitrary-precision integer of the unit library.  [Dec] is its
    18-decimal fixed-point number, kept as the integer mantissa: the value of
    [d] is [d / 10^18].  The library stores a big integer in the same way; its
    range check on the mantissa (more than 300 bits) is not part of the model.
    Its integer division truncates toward zero ([Z.quot]) and throws on a zero
    divisor: the operations below are the total part, and every call site whose
    divisor can be zero is written with [quoChecked]. *)

Definition Int := Z.

Module Dec.

Definition t := Z.

Definition precision : Z := 18.
(** [calcPrecisionMultiplier(0)], the mantissa of one. *)
Definition one : t := 10 ^ precision.

Definition ofInt (i : Int) : t := i * one.

Definition isZero (d : t) : bool := d =? 0.
Definition isNegative (d : t) : bool := d <? 0.
Definition isPositive (d : t) : bool := 0 <? d.
Definition equals (a b : t) : bool := a =? b.
Definition gt (a b : t) : bool := b <? a.
Definition gte (a b : t) : bool := b <=? a.
Definition lt (a b : t) : bool := a <? b.
Definition lte (a b : t) : bool := a <=? b.

Definition neg (d : t) : t := - d.
Definition abs (d : t) : t := Z.abs d.
Definition add (a b : t) : t := a + b.
Definition sub (a b : t) : t := a - b.

(** Dropping [precision] digits of a product or quotient, in the three
    rounding disciplines.  A negative argument is chopped on its absolute
    value and negated again. *)
Definition chopPrecisionAndRoundPos (p d : Z) : Z :=
  let q := d / p in
  let r := d mod p in
  let five := p / 2 in
  if r =? 0 then q
  else if r <? five then q
  else if five <? r then q + 1
  else if Z.even q then q else q + 1.

Definition chopRound (p d : Z) : Z :=
  if d <? 0 then - chopPrecisionAndRoundPos p (- d)
  else chopPrecisionAndRoundPos p d.

Definition chopTruncate (p d : Z) : Z := Z.quot d p.

Definition chopRoundUp (p d : Z) : Z :=
  if d <? 0 then - chopTruncate p (- d)
  else if d mod p =? 0 then d / p else d / p + 1.

Definition chopPrecisionAndRound := chopRound one.
Definition chopPrecisionAndTruncate := chopTruncate one.
Definition chopPrecisionAndRoundUp := chopRoundUp one.

Definition mul (a b : t) : t := chopPrecisionAndRound (a * b).
Definition mulTruncate (a b : t) : t := chopPrecisionAndTruncate (a * b).

(** [quo] multiplies by the precision twice, divides, and chops once. *)
Definition quo (a b : t) : t :=
  chopPrecisionAndRound (Z.quot (a * one * one) b).
Definition quoTruncate (a b : t) : t :=
  chopPrecisionAndTruncate (Z.quot (a * one * one) b).
Definition quoRoundUp (a b : t) : t :=
  chopPrecisionAndRoundUp (Z.quot (a * one * one) b).

Definition quoChecked (op : t -> t -> t) (a b : t) : Result t :=
  if isZero b then Throw (Error "Cannot divide by zero") else Ok (op a b).

(** Square-and-multiply, every product rounded; a negative exponent is the
    reciprocal of the positive power. *)
Fixpoint powLoop (fuel : nat) (i : Z) (base tmp : t) : t :=
  match fuel with
  | O => mul base tmp
  | S fuel' =>
      if 1 <? i then
        let tmp' := if Z.eqb (Z.rem i 2) 0 then tmp else mul tmp base in
        powLoop fuel' (Z.quot i 2) (mul base base) tmp'
      else mul base tmp
  end.

Definition powPos (d : t) (n : Int) : t :=
  powLoop (Z.to_nat (Z.log2 n) + 1) n d one.

Definition pow (d : t) (n : Int) : t :=
  if n =? 0 then one
  else if n <? 0 then quo one (powPos d (Z.abs n))
  else powPos d n.

Definition round (d : t) : Int := chopPrecisionAndRound d.
Definition roundUp (d : t) : Int := chopPrecisionAndRoundUp d.
Definition truncate (d : t) : Int := chopPrecisionAndTruncate d.
Definition roundUpDec (d : t) : t := ofInt (roundUp d).

End Dec.

Abbreviation Dec := Dec.t.

(** [DecUtils.getTenExponentN]: powers of ten as a [Dec]; an exponent below
    the precision is refused. *)
Definition getTenExponentN (n : Z) : Result Dec :=
  if n <? - Dec.precision then Throw (Error "Too little precision")
  else Ok (Dec.pow (Dec.ofInt 10) n).

(** ** Extended precision

    Modelled from the spec: [big-dec.ts] is not among the sources.  The spec
    calls it an extended-precision accumulator; it is the same fixed-point
    arithmetic with 36 decimals, converted to a [Dec] by truncating toward
    zero. *)
Module BigDec.

Definition t := Z.
Definition precision : Z := 36.
Definition one : t := 10 ^ precision.

Definition ofInt (i : Int) : t := i * one.
Definition ofDec (d : Dec) : t := d * 10 ^ (precision - Dec.precision).
Definition toDec (b : t) : Dec := Z.quot b (10 ^ (precision - Dec.precision)).

Definition add (a b : t) : t := a + b.
Definition mul (a b : t) : t := Dec.chopRound one (a * b).
Definition quo (a b : t) : t := Dec.chopRound one (Z.quot (a * one * one) b).

Fixpoint powLoop (fuel : nat) (i : Z) (base tmp : t) : t :=
  match fuel with
  | O => mul base tmp
  | S fuel' =>
      if 1 <? i then
        let tmp' := if Z.eqb (Z.rem i 2) 0 then tmp else mul tmp base in
        powLoop fuel' (Z.quot i 2) (mul base base) tmp'
      else mul base tmp
  end.

Definition pow (d : t) (n : Int) : t :=
  if n =? 0 then one
  else powLoop (Z.to_nat (Z.log2 n) + 1) n d one.

End BigDec.

Abbreviation BigDec := BigDec.t.

Arguments Dec.one : simpl never.
Arguments Dec.ofInt : simpl never.
Arguments Dec.mul : simpl never.
Arguments Dec.mulTruncate : simpl never.
Arguments Dec.quo : simpl never.
Arguments Dec.quoTruncate : simpl never.
Arguments Dec.quoRoundUp : simpl never.
Arguments Dec.pow : simpl never.
Arguments Dec.truncate : simpl never.
Arguments Dec.round : simpl never.
Arguments Dec.roundUp : simpl never.
Arguments BigDec.one : simpl never.
Arguments BigDec.ofInt : simpl never.
Arguments BigDec.ofDec : simpl never.
Arguments BigDec.toDec : simpl never.
Arguments BigDec.mul : simpl never.
Arguments BigDec.quo : simpl never.
Arguments BigDec.pow : simpl never.

(** ** Constants

    Modelled from the spec: [const.ts] is not among the sources.  The smallest
    decimal is the smallest representable [Dec]; the spot-price bounds are the
    18 decades below and 38 decades above price one that
    [computeMinMaxTicksFromExponentAtPriceOne] spans; the exponent at price one
    ranges over a small negative interval. *)
Definition smallestDec : Dec := 1.
Definition minSpotPrice : Dec := 1.
Definition maxSpotPrice : Dec := Dec.ofInt (10 ^ 38).
Definition exponentAtPriceOneMax : Int := -1.
Definition exponentAtPriceOneMin : Int := -12.

(** ** [math.ts]: amounts, next prices, fees, roots *)

Definition calcAmount0Delta (liquidity sqrtPriceA sqrtPriceB : Dec)
    (roundUp : bool) : Result Dec :=
  let '(sqrtPriceA, sqrtPriceB) :=
    if Dec.gt sqrtPriceA sqrtPriceB then (sqrtPriceB, sqrtPriceA)
    else (sqrtPriceA, sqrtPriceB) in
  let diff := Dec.sub sqrtPriceB sqrtPriceA in
  let denom := Dec.mul sqrtPriceA sqrtPriceB in
  let? q := Dec.quoChecked Dec.quo (Dec.mul liquidity diff) denom in
  if roundUp then Ok (Dec.roundUpDec q) else Ok q.

Definition calcAmount1Delta (liquidity sqrtPriceA sqrtPriceB : Dec)
    (roundUp : bool) : Dec :=
  let '(sqrtPriceA, sqrtPriceB) :=
    if Dec.gt sqrtPriceA sqrtPriceB then (sqrtPriceB, sqrtPriceA)
    else (sqrtPriceA, sqrtPriceB) in
  let diff := Dec.sub sqrtPriceB sqrtPriceA in
  if roundUp then Dec.roundUpDec (Dec.mul liquidity diff)
  else Dec.mul liquidity diff.

Definition getNextSqrtPriceFromAmount0InRoundingUp
    (sqrtPriceCurrent liquidity amountRemaining : Dec) : Result Dec :=
  if Dec.equals amountRemaining (Dec.ofInt 0) then Ok sqrtPriceCurrent
  else
    let product := Dec.mul amountRemaining sqrtPriceCurrent in
    let denom := Dec.add liquidity product in
    Dec.quoChecked Dec.quoRoundUp (Dec.mul liquidity sqrtPriceCurrent) denom.

Definition getNextSqrtPriceFromAmount1InRoundingDown
    (sqrtPriceCurrent liquidity amountRemaining : Dec) : Result Dec :=
  let? q := Dec.quoChecked Dec.quoTruncate amountRemaining liquidity in
  Ok (Dec.add sqrtPriceCurrent q).

Definition getNextSqrtPriceFromAmount0OutRoundingUp
    (sqrtPriceCurrent liquidity amountRemaining : Dec) : Result Dec :=
  if Dec.equals amountRemaining (Dec.ofInt 0) then Ok sqrtPriceCurrent
  else
    let product := Dec.mul amountRemaining sqrtPriceCurrent in
    let denom := Dec.sub liquidity product in
    Dec.quoChecked Dec.quoRoundUp (Dec.mul liquidity sqrtPriceCurrent) denom.

Definition getNextSqrtPriceFromAmount1OutRoundingDown
    (sqrtPriceCurrent liquidity amountRemaining : Dec) : Result Dec :=
  let? q := Dec.quoChecked Dec.quoRoundUp amountRemaining liquidity in
  Ok (Dec.sub sqrtPriceCurrent q).

Definition getFeeChargePerSwapStepOutGivenIn (hasReachedTarget : bool)
    (amountIn amountSpecifiedRemaining swapFee : Dec) : Result Dec :=
  let feeChargeTotal := Dec.ofInt 0 in
  if Dec.isNegative swapFee then
    Throw (Error "Swap fee should be non-negative")
  else if Dec.isZero swapFee then Ok feeChargeTotal
  else
    let? feeChargeTotal :=
      if hasReachedTarget then
        Dec.quoChecked Dec.quo (Dec.mul amountIn swapFee)
          (Dec.sub (Dec.ofInt 1) swapFee)
      else Ok (Dec.sub amountSpecifiedRemaining amountIn) in
    if Dec.isNegative feeChargeTotal then
      Throw (Error "Fee charge should be non-negative")
    else Ok feeChargeTotal.

(** The body of the [for] loop of [approxRoot]; [iters] counts the
    iterations still allowed by [maxIters]. *)
Fixpoint approxRootLoop (iters : nat) (dec : Dec) (root : Z)
    (guess delta : Dec) : Dec :=
  match iters with
  | O => guess
  | S iters' =>
      if Dec.gt (Dec.abs delta) smallestDec then
        let prev := Dec.pow guess (root - 1) in
        let prev := if Dec.isZero prev then smallestDec else prev in
        let delta := Dec.quo dec prev in
        let delta := Dec.sub delta guess in
        let delta := Dec.quoTruncate delta (Dec.ofInt root) in
        approxRootLoop iters' dec root (Dec.add guess delta) delta
      else guess
  end.

Definition approxRootNonNeg (dec : Dec) (root : Z) (maxIters : nat) : Dec :=
  if (root =? 1) || Dec.isZero dec || Dec.equals dec (Dec.ofInt 1) then dec
  else if root =? 0 then Dec.ofInt 1
  else approxRootLoop maxIters dec root (Dec.ofInt 1) (Dec.ofInt 1).

(** A negative argument recurses on its negation with the default 300
    iterations. *)
Definition approxRoot (dec : Dec) (root : Z) (maxIters : nat) : Dec :=
  if Dec.isNegative dec then
    Dec.neg (approxRootNonNeg (Dec.neg dec) root 300)
  else approxRootNonNeg dec root maxIters.

Definition approxSqrt (dec : Dec) : Dec := approxRoot dec 2 300.

Definition addLiquidity (a b : Dec) : Dec :=
  if Dec.lt b (Dec.ofInt 0) then Dec.sub a (Dec.abs b) else Dec.add a b.

(** ** [tick.ts]: ticks and prices *)

Definition nine : Dec := Dec.ofInt 9.

Definition computeMinMaxTicksFromExponentAtPriceOne (exponentAtPriceOne : Z)
    : Int * Int :=
  let geometricExponentIncrementDistanceInTicks :=
    Dec.mul (Dec.ofInt 9) (Dec.pow (Dec.ofInt 10) (- exponentAtPriceOne)) in
  (Dec.round
     (Dec.neg (Dec.mul (Dec.ofInt 18) geometricExponentIncrementDistanceInTicks)),
   Dec.truncate
     (Dec.mul (Dec.ofInt 38) geometricExponentIncrementDistanceInTicks)).

Definition minTick (e : Z) : Int := fst (computeMinMaxTicksFromExponentAtPriceOne e).
Definition maxTick (e : Z) : Int := snd (computeMinMaxTicksFromExponentAtPriceOne e).

Definition exponentOutOfRange (exponentAtPriceOne : Z) : bool :=
  (exponentAtPriceOneMax <? exponentAtPriceOne)
  || (exponentAtPriceOne <? exponentAtPriceOneMin).

(** The price of a tick, before the square root: lines 50-85 of
    [tickToSqrtPrice]. *)
Definition tickToPrice (tickIndex : Int) (exponentAtPriceOne : Z) : Result Dec :=
  let? _ := guard (exponentOutOfRange exponentAtPriceOne)
              (Error "exponentAtPriceOne is out of range") in
  let? ten := getTenExponentN (- exponentAtPriceOne) in
  let geometricExponentIncrementDistanceInTicks := Dec.mul nine ten in
  let '(minTick, maxTick) :=
    computeMinMaxTicksFromExponentAtPriceOne exponentAtPriceOne in
  let? _ := guard ((tickIndex <? minTick) || (maxTick <? tickIndex))
              (Error "tickIndex is out of range") in
  let? q := Dec.quoChecked Dec.quoTruncate (Dec.ofInt tickIndex)
              (Dec.ofInt (Dec.truncate geometricExponentIncrementDistanceInTicks)) in
  let geometricExponentDelta := Dec.truncate q in
  let exponentAtCurTick := exponentAtPriceOne + geometricExponentDelta in
  let exponentAtCurTick :=
    if tickIndex <? 0 then exponentAtCurTick - 1 else exponentAtCurTick in
  let? currentAdditiveIncrementInTicks := getTenExponentN exponentAtCurTick in
  let numAdditiveTicks :=
    tickIndex
    - geometricExponentDelta
      * Dec.truncate geometricExponentIncrementDistanceInTicks in
  let? tenDelta := getTenExponentN geometricExponentDelta in
  let price :=
    BigDec.toDec
      (BigDec.add (BigDec.ofDec tenDelta)
         (BigDec.mul (BigDec.ofInt numAdditiveTicks)
            (BigDec.ofDec currentAdditiveIncrementInTicks))) in
  let? _ := guard (Dec.gt price maxSpotPrice || Dec.lt price minSpotPrice)
              (Error "price is out of range") in
  Ok price.

Definition tickToSqrtPrice (tickIndex : Int) (exponentAtPriceOne : Z)
    : Result Dec :=
  if tickIndex =? 0 then Ok (Dec.ofInt 1)
  else
    let? price := tickToPrice tickIndex exponentAtPriceOne in
    Ok (approxSqrt price).

Definition powTenBigDec (exponent : Int) : BigDec :=
  if 0 <=? exponent then BigDec.pow (BigDec.ofInt 10) exponent
  else BigDec.quo (BigDec.ofInt 1) (BigDec.pow (BigDec.ofInt 10) (Z.abs exponent)).

Record PriceAndTicksPassed : Type := {
  currentPrice : Dec;
  ticksPassed : Int;
  currentAdditiveIncrementInTicks : BigDec
}.

(** The two [while] loops of [calculatePriceAndTicksPassed]; [up] is the
    branch for a price above one. *)
Fixpoint priceWalk (fuel : nat) (up : bool) (price dist : Dec)
    (currentPrice : Dec) (ticksPassed exponentAtCurTick : Int)
    (increment : BigDec) : Result PriceAndTicksPassed :=
  if (if up then Dec.lt currentPrice price else Dec.gt currentPrice price) then
    match fuel with
    | O => OutOfFuel
    | S fuel' =>
        let increment := powTenBigDec exponentAtCurTick in
        let maxPriceForCurrentAdditiveIncrementInTicks :=
          BigDec.mul (BigDec.ofDec dist) increment in
        let step := BigDec.toDec maxPriceForCurrentAdditiveIncrementInTicks in
        if up then
          priceWalk fuel' up price dist (Dec.add currentPrice step)
            (ticksPassed + Dec.truncate dist) (exponentAtCurTick + 1) increment
        else
          priceWalk fuel' up price dist (Dec.sub currentPrice step)
            (ticksPassed - Dec.truncate dist) (exponentAtCurTick - 1) increment
    end
  else
    Ok {| currentPrice := currentPrice;
          ticksPassed := ticksPassed;
          currentAdditiveIncrementInTicks := increment |}.

Definition walkFuel : nat := 128.

Definition calculatePriceAndTicksPassed (price : Dec) (exponentAtPriceOne : Z)
    : Result PriceAndTicksPassed :=
  let? ten := getTenExponentN (- exponentAtPriceOne) in
  let geometricExponentIncrementDistanceInTicks := Dec.mul nine ten in
  let increment := powTenBigDec exponentAtPriceOne in
  if Dec.gt price (Dec.ofInt 1) then
    priceWalk walkFuel true price geometricExponentIncrementDistanceInTicks
      (Dec.ofInt 1) 0 exponentAtPriceOne increment
  else
    priceWalk walkFuel false price geometricExponentIncrementDistanceInTicks
      (Dec.ofInt 1) 0 (exponentAtPriceOne - 1) increment.

Definition priceToTick (price : Dec) (exponentAtPriceOne : Z) : Result Int :=
  if Dec.equals price (Dec.ofInt 1) then Ok 0
  else
    let? _ := guard (Dec.isNegative price) (Error "Price is negative") in
    let? _ := guard (Dec.gt price maxSpotPrice || Dec.lt price minSpotPrice)
                (Error "Price not within bounds") in
    let? _ := guard (exponentOutOfRange exponentAtPriceOne)
                (Error "Exponent at price one not within bounds") in
    let? w := calculatePriceAndTicksPassed price exponentAtPriceOne in
    let ticksToBeFilledByExponentAtCurrentTick :=
      BigDec.quo (BigDec.ofDec (Dec.sub price (currentPrice w)))
        (currentAdditiveIncrementInTicks w) in
    let tickIndex :=
      ticksPassed w
      + Dec.truncate (BigDec.toDec ticksToBeFilledByExponentAtCurrentTick) in
    let '(minTick, maxTick) :=
      computeMinMaxTicksFromExponentAtPriceOne exponentAtPriceOne in
    let? _ := guard ((tickIndex <? minTick) || (maxTick <? tickIndex))
                (Error "Tick index not within bounds") in
    Ok tickIndex.

(** ** [swap-strategy.ts]: the strategy interface *)

Record SwapStep : Type := {
  sqrtPriceNext : Dec;
  amountInConsumed : Dec;
  amountOutComputed : Dec;
  feeChargeTotal : Dec
}.

Record SwapStrategy : Type := {
  getSqrtTargetPrice : Dec -> Dec;
  computeSwapStepOutGivenIn : Dec -> Dec -> Dec -> Dec -> Result SwapStep;
  initTickValue : Int -> Int;
  validatePriceLimit : Dec -> Dec -> bool;
  setLiquidityDeltaSign : Dec -> Dec
}.

(** ** [quotes.ts]: the quote loop *)

Record Coin : Type := { denom : string; amount : Int }.

Record SwapState : Type := {
  amountRemaining : Dec;
  amountCalculated : Dec;
  sqrtPrice : Dec;
  tick : Int;
  liquidity : Dec;
  feeGrowthGlobal : Dec
}.

Section Quotes.

(** The two strategy classes and [sqrtPriceToTick] are imported by
    [quotes.ts] from files that are not among the sources; the quote loop is
    written over any implementation of them. *)
Variable ZeroForOneStrategy : Dec -> Dec -> SwapStrategy.
Variable OneForZeroStrategy : Dec -> Dec -> SwapStrategy.
Variable sqrtPriceToTick : Dec -> Z -> Result Int.

Definition makeSwapStrategy (izZeroForOne : bool) (sqrtPriceLimit swapFee : Dec)
    : SwapStrategy :=
  if izZeroForOne then ZeroForOneStrategy sqrtPriceLimit swapFee
  else OneForZeroStrategy sqrtPriceLimit swapFee.

(** The condition of the [while] loop. *)
Definition swapContinues (sqrtPriceLimit : Dec) (swapState : SwapState) : bool :=
  Dec.gt (amountRemaining swapState) smallestDec
  && negb (Dec.equals (sqrtPrice swapState) sqrtPriceLimit).

(** One pass through the body of the loop, once [nextTick] was read. *)
Definition swapStep (swapStrategy : SwapStrategy)
    (precisionFactorAtPriceOne : Z) (nextTick : Int) (swapState : SwapState)
    : Result SwapState :=
  let sqrtPriceStart := sqrtPrice swapState in
  let? nextTickSqrtPrice := tickToSqrtPrice nextTick precisionFactorAtPriceOne in
  let sqrtPriceTarget := getSqrtTargetPrice swapStrategy nextTickSqrtPrice in
  let? step :=
    computeSwapStepOutGivenIn swapStrategy (sqrtPrice swapState)
      sqrtPriceTarget (liquidity swapState) (amountRemaining swapState) in
  let amountOneIn := amountInConsumed step in
  let amountZeroOut := amountOutComputed step in
  let remaining :=
    Dec.sub (amountRemaining swapState)
      (Dec.add amountOneIn (feeChargeTotal step)) in
  let calculated := Dec.add (amountCalculated swapState) amountZeroOut in
  if Dec.equals nextTickSqrtPrice (sqrtPriceNext step) then
    let liquidityNet :=
      setLiquidityDeltaSign swapStrategy (Dec.ofInt nextTick) in
    Ok {| amountRemaining := remaining;
          amountCalculated := calculated;
          sqrtPrice := sqrtPriceNext step;
          tick := tick swapState;
          liquidity := addLiquidity (liquidity swapState) liquidityNet;
          feeGrowthGlobal := feeGrowthGlobal swapState |}
  else if negb (Dec.equals sqrtPriceStart (sqrtPriceNext step)) then
    let? newTick := sqrtPriceToTick (sqrtPriceNext step) precisionFactorAtPriceOne in
    Ok {| amountRemaining := remaining;
          amountCalculated := calculated;
          sqrtPrice := sqrtPriceNext step;
          tick := newTick;
          liquidity := liquidity swapState;
          feeGrowthGlobal := feeGrowthGlobal swapState |}
  else
    Ok {| amountRemaining := remaining;
          amountCalculated := calculated;
          sqrtPrice := sqrtPriceNext step;
          tick := tick swapState;
          liquidity := liquidity swapState;
          feeGrowthGlobal := feeGrowthGlobal swapState |}.

(** The [while] loop.  The index [i] starts at [curTickIndex] and grows by
    one per pass, so the passes read the elements of [tickDepths] from
    [curTickIndex] on, in order: [ticksAhead] is that suffix, and reading
    past its end is the [undefined] that raises [TickOverflowError]. *)
Fixpoint swapLoop (swapStrategy : SwapStrategy) (sqrtPriceLimit : Dec)
    (precisionFactorAtPriceOne : Z) (ticksAhead : list Int)
    (swapState : SwapState) : Result SwapState :=
  if swapContinues sqrtPriceLimit swapState then
    match ticksAhead with
    | [] => Throw (TickOverflowError "Not enough ticks to calculate swap")
    | nextTick :: ticksAhead' =>
        let? swapState' :=
          swapStep swapStrategy precisionFactorAtPriceOne nextTick swapState in
        swapLoop swapStrategy sqrtPriceLimit precisionFactorAtPriceOne
          ticksAhead' swapState'
    end
  else Ok swapState.

(** The swap state once every tick of [ticksAhead] was consumed by a pass of
    the loop: defined when the loop condition held before each pass and no
    pass threw. *)
Fixpoint afterTicks (swapStrategy : SwapStrategy) (sqrtPriceLimit : Dec)
    (precisionFactorAtPriceOne : Z) (ticksAhead : list Int)
    (swapState : SwapState) : option SwapState :=
  match ticksAhead with
  | [] => Some swapState
  | nextTick :: ticksAhead' =>
      if swapContinues sqrtPriceLimit swapState then
        match swapStep swapStrategy precisionFactorAtPriceOne nextTick
                swapState with
        | Ok swapState' =>
            afterTicks swapStrategy sqrtPriceLimit precisionFactorAtPriceOne
              ticksAhead' swapState'
        | _ => None
        end
      else None
  end.

(** [tickDepths?.[i]] for [i = curTickIndex, curTickIndex + 1, ...]: nothing
    at a negative index. *)
Definition ticksFrom (tickDepths : list Int) (curTickIndex : Z) : list Int :=
  if curTickIndex <? 0 then [] else skipn (Z.to_nat curTickIndex) tickDepths.

(** Lines 36-56 of [calcOutGivenIn]: the sqrt-price limit, the strategy and
    the initial swap state. *)
Definition swapSetup (tokenIn : Coin) (tokenDenom0 : string)
    (poolLiquidity : Dec) (curTick : Int) (curSqrtPrice : Dec)
    (swapFee : Dec) (priceLimit : Dec) : Dec * SwapStrategy * SwapState :=
  let tokenInAmountSpecified := Dec.ofInt (amount tokenIn) in
  let isZeroForOne := String.eqb (denom tokenIn) tokenDenom0 in
  let priceLimit :=
    if isZeroForOne && Dec.equals priceLimit (Dec.ofInt 0) then minSpotPrice
    else if negb isZeroForOne && Dec.equals priceLimit (Dec.ofInt 0)
         then maxSpotPrice
    else priceLimit in
  let sqrtPriceLimit := approxSqrt priceLimit in
  let swapStrategy := makeSwapStrategy isZeroForOne sqrtPriceLimit swapFee in
  let swapState :=
    {| amountRemaining := tokenInAmountSpecified;
       amountCalculated := Dec.ofInt 0;
       sqrtPrice := curSqrtPrice;
       tick := initTickValue swapStrategy curTick;
       liquidity := poolLiquidity;
       feeGrowthGlobal := Dec.ofInt 0 |} in
  (sqrtPriceLimit, swapStrategy, swapState).

(** [calcOutGivenIn] up to the end of its loop: the final swap state. *)
Definition calcOutGivenInState (tokenIn : Coin) (tokenDenom0 : string)
    (poolLiquidity : Dec) (tickDepths : list Int) (curTickIndex : Z)
    (curTick : Int) (curSqrtPrice : Dec) (precisionFactorAtPriceOne : Z)
    (swapFee : Dec) (priceLimit : Dec) : Result SwapState :=
  let '(sqrtPriceLimit, swapStrategy, swapState) :=
    swapSetup tokenIn tokenDenom0 poolLiquidity curTick curSqrtPrice swapFee
      priceLimit in
  swapLoop swapStrategy sqrtPriceLimit precisionFactorAtPriceOne
    (ticksFrom tickDepths curTickIndex) swapState.

Definition calcOutGivenIn (tokenIn : Coin) (tokenDenom0 : string)
    (poolLiquidity : Dec) (tickDepths : list Int) (curTickIndex : Z)
    (curTick : Int) (curSqrtPrice : Dec) (precisionFactorAtPriceOne : Z)
    (swapFee : Dec) (priceLimit : Dec) : Result Int :=
  let? swapState :=
    calcOutGivenInState tokenIn tokenDenom0 poolLiquidity tickDepths
      curTickIndex curTick curSqrtPrice precisionFactorAtPriceOne swapFee
      priceLimit in
  Ok (Dec.truncate (amountCalculated swapState)).

End Quotes.

(** ** The two strategies

    Modelled from the spec: [zero-for-one.ts] and [one-for-zero.ts] are not
    among the sources.  Section 4.2 of the spec gives their step: the target is
    the nearer of the next tick's sqrt-price and the price limit; the next
    price reachable with the remaining input less fee is computed with the
    closed forms of [math.ts] ([1/sqrtP] differences for token0 amounts, [sqrtP]
    differences for token1 amounts, the input leg rounded up, the output leg
    rounded down); a price that would overshoot is clamped to the target and
    the consumed amount recomputed only when the target was not reached; the
    fee is [getFeeChargePerSwapStepOutGivenIn].  Crossing a tick downward
    negates its net liquidity. *)
Definition stepOutGivenIn (zeroForOne : bool) (swapFee : Dec)
    (curSqrtPrice sqrtPriceTarget liquidity amountRemainingIn : Dec)
    : Result SwapStep :=
  let amountInTo target :=
    if zeroForOne then calcAmount0Delta liquidity target curSqrtPrice true
    else Ok (calcAmount1Delta liquidity target curSqrtPrice true) in
  let? amountIn := amountInTo sqrtPriceTarget in
  let amountRemainingLessFee :=
    Dec.mul amountRemainingIn (Dec.sub (Dec.ofInt 1) swapFee) in
  let? sqrtPriceNext :=
    if Dec.gte amountRemainingLessFee amountIn then Ok sqrtPriceTarget
    else if zeroForOne then
      getNextSqrtPriceFromAmount0InRoundingUp curSqrtPrice liquidity
        amountRemainingLessFee
    else
      getNextSqrtPriceFromAmount1InRoundingDown curSqrtPrice liquidity
        amountRemainingLessFee in
  let hasReachedTarget := Dec.equals sqrtPriceTarget sqrtPriceNext in
  let? amountIn := if hasReachedTarget then Ok amountIn else amountInTo sqrtPriceNext in
  let? amountOut :=
    if zeroForOne then Ok (calcAmount1Delta liquidity sqrtPriceNext curSqrtPrice false)
    else calcAmount0Delta liquidity sqrtPriceNext curSqrtPrice false in
  let? feeChargeTotal :=
    getFeeChargePerSwapStepOutGivenIn hasReachedTarget amountIn
      amountRemainingIn swapFee in
  Ok {| sqrtPriceNext := sqrtPriceNext;
        amountInConsumed := amountIn;
        amountOutComputed := amountOut;
        feeChargeTotal := feeChargeTotal |}.

(** Modelled from the spec: the zero-for-one strategy of section 4.2 (price
    moves down). *)
Definition ZeroForOneStrategy (sqrtPriceLimit swapFee : Dec) : SwapStrategy :=
  {| getSqrtTargetPrice nextTickSqrtPrice :=
       if Dec.lt nextTickSqrtPrice sqrtPriceLimit then sqrtPriceLimit
       else nextTickSqrtPrice;
     computeSwapStepOutGivenIn := stepOutGivenIn true swapFee;
     initTickValue curTick := curTick + 1;
     validatePriceLimit limit curSqrtPrice :=
       Dec.lt limit curSqrtPrice && Dec.gt limit minSpotPrice;
     setLiquidityDeltaSign liquidityDelta := Dec.neg liquidityDelta |}.

(** Modelled from the spec: the one-for-zero strategy of section 4.2 (price
    moves up). *)
Definition OneForZeroStrategy (sqrtPriceLimit swapFee : Dec) : SwapStrategy :=
  {| getSqrtTargetPrice nextTickSqrtPrice :=
       if Dec.gt nextTickSqrtPrice sqrtPriceLimit then sqrtPriceLimit
       else nextTickSqrtPrice;
     computeSwapStepOutGivenIn := stepOutGivenIn false swapFee;
     initTickValue curTick := curTick;
     validatePriceLimit limit curSqrtPrice :=
       Dec.gt limit curSqrtPrice && Dec.lt limit maxSpotPrice;
     setLiquidityDeltaSign liquidityDelta := liquidityDelta |}.

(** Modelled from the spec: [sqrtPriceToTick] is imported from [tick.ts] but
    not defined in the version among the sources; the spec has the loop
    recompute the tick index from the new sqrt-price, that is from its
    square. *)
Definition sqrtPriceToTick (sqrtPrice : Dec) (exponentAtPriceOne : Z)
    : Result Int :=
  priceToTick (Dec.pow sqrtPrice 2) exponentAtPriceOne.

(** The reference fixture: one position between ticks 305450 and 315000. *)
Definition decOfDigits (int frac : Z) : Dec := int * Dec.one + frac.

Definition fixtureLiquidity : Dec := decOfDigits 1517882343 751510418088349649.
Definition fixtureSqrtPrice : Dec := decOfDigits 70 710678118654752440.
Definition fixtureTicks : list Int := [305450; 0; 315000].

Definition fixtureCalcOutGivenInState (tokenIn : Coin) (tickDepths : list Int)
    (curTickIndex : Z) : Result SwapState :=
  calcOutGivenInState ZeroForOneStrategy OneForZeroStrategy sqrtPriceToTick
    tokenIn "eth" fixtureLiquidity tickDepths curTickIndex 310000
    fixtureSqrtPrice (-4) (Dec.ofInt 0) (Dec.ofInt 0).

Definition fixtureCalcOutGivenIn (tokenIn : Coin) (tickDepths : list Int)
    (curTickIndex : Z) : Result Int :=
  calcOutGivenIn ZeroForOneStrategy OneForZeroStrategy sqrtPriceToTick
    tokenIn "eth" fixtureLiquidity tickDepths curTickIndex 310000
    fixtureSqrtPrice (-4) (Dec.ofInt 0) (Dec.ofInt 0).

(** ** The router: routes and pools

    A [RoutablePool] is the capability set the router reads: its id, its asset
    denominations and the per-token-in limit.  Quoting through the pools of a
    route is the injected [calculateTokenOutByTokenIn] below. *)

Record RoutablePool : Type := {
  id : string;
  poolAssetDenoms : list string;
  getLimitAmountByTokenIn : string -> Result Int
}.

Record Route : Type := {
  pools : list RoutablePool;
  tokenOutDenoms : list string;
  tokenInDenom : string
}.

Record RouteWithInAmount : Type := {
  route : Route;
  initialAmount : Int
}.

(** [RouteWithInAmount & { outAmount: Int }], local to the split search. *)
Record RouteWithInAndOutAmount : Type := {
  routeIn : RouteWithInAmount;
  outAmount : Int
}.

Definition includes (l : list string) (s : string) : bool :=
  existsb (String.eqb s) l.

(** [pop()] on an array: the last element goes, an empty array stays. *)
Definition pop {A} (l : list A) : list A := removelast l.

(** [a[i] = x] for an index within the array. *)
Fixpoint setAt {A} (i : nat) (x : A) (l : list A) : list A :=
  match l, i with
  | [], _ => []
  | _ :: l', O => x :: l'
  | y :: l', S i' => y :: setAt i' x l'
  end.

(** The nested [forEach] of [findRoutes]: the last denomination of the pool
    that is among the previous token outs. *)
Definition tokenMatch (poolDenoms previousTokenOuts : list string)
    : option string :=
  fold_left
    (fun acc denom =>
       fold_left
         (fun acc d => if String.eqb d denom then Some denom else acc)
         previousTokenOuts acc)
    poolDenoms None.

(** The arrays [findRoutes] shares with its recursive calls. *)
Record FindState : Type := {
  routes : list Route;
  currentRoute : list RoutablePool;
  currentTokenOuts : list string;
  poolsUsed : list bool
}.

Section CandidateRoutes.

Variable _sortedPools : list RoutablePool.
Variable _maxHops : Z.
Variable _maxRoutes : Z.

Definition lastPoolHas (currentRoute : list RoutablePool) (d : string) : bool :=
  match rev currentRoute with
  | [] => false
  | p :: _ => includes (poolAssetDenoms p) d
  end.

(** [findRoutes]; [fuel] bounds the depth of the recursion, which cannot
    exceed the number of pools since a pool in use is skipped. *)
Fixpoint findRoutes (fuel : nat) (tokenInDenom tokenOutDenom : string)
    (_previousTokenOuts : option (list string)) (st : FindState)
    : Result FindState :=
  match fuel with
  | O => OutOfFuel
  | S fuel' =>
    if _maxHops <? Z.of_nat (List.length (currentRoute st)) then Ok st
    else if (0 <? Z.of_nat (List.length (currentRoute st)))
            && lastPoolHas (currentRoute st) tokenOutDenom then
      let foundRoute :=
        {| pools := currentRoute st;
           tokenOutDenoms := currentTokenOuts st ++ [tokenOutDenom];
           tokenInDenom := tokenInDenom |} in
      Ok {| routes := routes st ++ [foundRoute];
            currentRoute := currentRoute st;
            currentTokenOuts := currentTokenOuts st;
            poolsUsed := poolsUsed st |}
    else if _maxRoutes <? Z.of_nat (List.length (routes st)) then Ok st
    else
      (fix forPools (indices : list nat) (st : FindState) : Result FindState :=
         match indices with
         | [] => Ok st
         | i :: indices' =>
           if nth i (poolsUsed st) false then forPools indices' st
           else
             let previousTokenOuts :=
               match _previousTokenOuts with
               | Some p => p
               | None => [tokenInDenom]
               end in
             match nth_error _sortedPools i with
             | None => forPools indices' st
             | Some curPool =>
               match tokenMatch (poolAssetDenoms curPool) previousTokenOuts with
               | None => forPools indices' st
               | Some prevPoolCurPoolTokenMatch =>
                 if String.eqb prevPoolCurPoolTokenMatch "" then
                   forPools indices' st
                 else
                   let route1 := currentRoute st ++ [curPool] in
                   let outs1 :=
                     if (1 <? Z.of_nat (List.length route1))
                        && negb (String.eqb prevPoolCurPoolTokenMatch tokenInDenom)
                        && negb (String.eqb prevPoolCurPoolTokenMatch tokenOutDenom)
                     then currentTokenOuts st ++ [prevPoolCurPoolTokenMatch]
                     else currentTokenOuts st in
                   let st1 :=
                     {| routes := routes st;
                        currentRoute := route1;
                        currentTokenOuts := outs1;
                        poolsUsed := setAt i true (poolsUsed st) |} in
                   let? st2 :=
                     findRoutes fuel' tokenInDenom tokenOutDenom
                       (Some (filter
                                (fun denom =>
                                   negb (String.eqb denom prevPoolCurPoolTokenMatch))
                                (poolAssetDenoms curPool)))
                       st1 in
                   forPools indices'
                     {| routes := routes st2;
                        currentRoute := pop (currentRoute st2);
                        currentTokenOuts := pop (currentTokenOuts st2);
                        poolsUsed := setAt i false (poolsUsed st2) |}
               end
             end
         end) (seq 0 (List.length _sortedPools)) st
  end.

(** [_candidatePathsCache], a map from ["in/out"] to the routes found. *)
Definition PathsCache := list (string * list Route).

Fixpoint cacheGet {V} (k : string) (c : list (string * V)) : option V :=
  match c with
  | [] => None
  | (k', v) :: c' => if String.eqb k k' then Some v else cacheGet k c'
  end.

Definition cacheSet {V} (k : string) (v : V) (c : list (string * V))
    : list (string * V) := (k, v) :: c.

Definition getCandidateRoutes (tokenInDenom tokenOutDenom : string)
    (cache : PathsCache) : Result (list Route * PathsCache) :=
  if Nat.eqb (List.length _sortedPools) 0 then Ok ([], cache)
  else
    let cacheKey := (tokenInDenom ++ "/" ++ tokenOutDenom)%string in
    match cacheGet cacheKey cache with
    | Some cached => Ok (cached, cache)
    | None =>
      let poolsUsed := repeat false (List.length _sortedPools) in
      let? st :=
        findRoutes (S (List.length _sortedPools)) tokenInDenom tokenOutDenom None
          {| routes := []; currentRoute := []; currentTokenOuts := [];
             poolsUsed := poolsUsed |} in
      Ok (filter
            (fun r => Z.of_nat (List.length (pools r)) <=? _maxHops)
            (routes st),
          cacheSet cacheKey (routes st) cache)
    end.

End CandidateRoutes.

(** ** The router: ranking and splitting *)

Definition OutCache := list (string * Int).

(** The state the split search keeps outside its recursion: the best split so
    far with its output, and [_calcRouteOutAmtGivenInAmtCache]. *)
Record SplitState : Type := {
  bestSplit : list RouteWithInAndOutAmount;
  bestOutAmount : Int;
  outCache : OutCache
}.

Definition setInitialAmount (r : RouteWithInAndOutAmount) (a : Int)
    : RouteWithInAndOutAmount :=
  {| routeIn := {| route := route (routeIn r); initialAmount := a |};
     outAmount := outAmount r |}.

Definition setOutAmount (r : RouteWithInAndOutAmount) (a : Int)
    : RouteWithInAndOutAmount :=
  {| routeIn := routeIn r; outAmount := a |}.

Definition sumInitialAmounts (l : list RouteWithInAmount) : Int :=
  fold_left (fun acc r => acc + initialAmount r) l 0.

Definition sumOutAmounts (l : list RouteWithInAndOutAmount) : Int :=
  fold_left (fun total r => total + outAmount r) l 0.

(** The values of [i] in [for (let i = 0; i <= maxIterations; i++)]. *)
Definition fractionIndices (maxIterations : Z) : list Z :=
  map Z.of_nat (seq 0 (Z.to_nat maxIterations + 1)).

Section OptimizedRoutes.

(** The host's [Array.prototype.sort], and the collaborators the router
    imports from files that are not among the sources: [invertRoute],
    [calculateWeightForRoute], [cacheKeyForRoute].  The amount quoted by
    [calculateTokenOutByTokenIn] for a single route is taken as given: it
    asks the pools of the route, which are external. *)
Variable sort : forall A : Type, (A -> A -> Z) -> list A -> list A.
Variable invertRoute : Route -> Route.
Variable calculateWeightForRoute : Route -> (string -> Dec) -> Dec.
Variable cacheKeyForRoute : RouteWithInAndOutAmount -> string.
Variable calculateTokenOutByTokenIn : list RouteWithInAmount -> Result Int.

Variable _sortedPools : list RoutablePool.
Variable _getPoolTotalValueLocked : string -> Dec.
Variable _maxHops : Z.
Variable _maxRoutes : Z.

(** The comparator of the sort.  [routes.indexOf(path)] finds a route by
    object identity and the candidates are distinct objects, so an element
    of the array is kept with its position. *)
Definition routeComparator (routeWeights : list Dec)
    (path1 path2 : nat * Route) : Z :=
  let path1Index := fst path1 in
  let path2Index := fst path2 in
  let path1Weight := nth path1Index routeWeights 0 in
  let path2Weight := nth path2Index routeWeights 0 in
  if Dec.gte path1Weight path2Weight then -1 else 1.

Definition routeWeightsOf (routes : list Route) : list Dec :=
  map (fun route => calculateWeightForRoute route _getPoolTotalValueLocked)
    routes.

Definition sortRoutesByWeight (routes : list Route) : list Route :=
  let routeWeights := routeWeightsOf routes in
  map snd
    (sort _ (routeComparator routeWeights)
       (combine (seq 0 (List.length routes)) routes)).

(** "Is direct swap, but not enough liquidity". *)
Definition dropIlliquidDirectRoute (routes : list Route) (tokenIn : Coin)
    : Result (list Route) :=
  match routes with
  | route0 :: _ :: _ =>
      match pools route0 with
      | [pool0] =>
          let? directSwapLimit :=
            getLimitAmountByTokenIn pool0 (denom tokenIn) in
          if directSwapLimit <? amount tokenIn then Ok (tl routes)
          else Ok routes
      | _ => Ok routes
      end
  | _ => Ok routes
  end.

(** The routes handed to the split search: [top2Routes]. *)
Definition top2Routes (candidates : list Route) (tokenIn : Coin)
    : Result (list Route) :=
  let routes := sortRoutesByWeight candidates in
  let? routes := dropIlliquidDirectRoute routes tokenIn in
  Ok (firstn 2 routes).

(** The [for] loop of [splitRecursive] over the fractions [i / maxIterations]
    of the remaining amount; [recur] is the recursive call on the rest of
    the routes.  The route objects are shared and mutated: the one taken off
    [remainingRoutes] keeps its amounts from one pass to the next and is put
    back at the end, so the loop returns the remaining routes as it leaves
    them. *)
Fixpoint forFractions
    (recur : Int -> list RouteWithInAndOutAmount ->
             list RouteWithInAndOutAmount -> SplitState ->
             Result (SplitState * list RouteWithInAndOutAmount))
    (maxIterations : Z) (remainingInAmount : Int)
    (currentSplit : list RouteWithInAndOutAmount)
    (indices : list Z) (route : RouteWithInAndOutAmount)
    (rest : list RouteWithInAndOutAmount) (st : SplitState)
    : Result (SplitState * list RouteWithInAndOutAmount) :=
  match indices with
  | [] => Ok (st, route :: rest)
  | i :: indices' =>
    let fraction := Dec.quo (Dec.ofInt i) (Dec.ofInt maxIterations) in
    let inAmount :=
      Dec.truncate (Dec.mul (Dec.ofInt remainingInAmount) fraction) in
    if inAmount =? 0 then
      forFractions recur maxIterations remainingInAmount currentSplit
        indices' route rest st
    else
      let route := setInitialAmount route inAmount in
      let cacheKey := cacheKeyForRoute route in
      let? (outAmount, cache) :=
        match cacheGet cacheKey (outCache st) with
        | Some cacheHit => Ok (cacheHit, outCache st)
        | None =>
            let? amount := calculateTokenOutByTokenIn [routeIn route] in
            Ok (amount, cacheSet cacheKey amount (outCache st))
        end in
      let st := {| bestSplit := bestSplit st;
                   bestOutAmount := bestOutAmount st;
                   outCache := cache |} in
      if outAmount =? 0 then
        forFractions recur maxIterations remainingInAmount currentSplit
          indices' route rest st
      else
        let route := setOutAmount route outAmount in
        let? (st', rest') :=
          recur (remainingInAmount - inAmount) rest
            (currentSplit ++ [route]) st in
        forFractions recur maxIterations remainingInAmount currentSplit
          indices' route rest' st'
  end.

(** [splitRecursive]; [fuel] bounds the depth of the recursion, one level
    per remaining route.  The copy made at a leaf is the list of values of
    [currentSplit]. *)
Fixpoint splitRecursive (fuel : nat) (maxIterations : Z)
    (remainingInAmount : Int)
    (remainingRoutes currentSplit : list RouteWithInAndOutAmount)
    (st : SplitState)
    : Result (SplitState * list RouteWithInAndOutAmount) :=
  match remainingRoutes with
  | [] =>
      let totalOutAmount := sumOutAmounts currentSplit in
      if bestOutAmount st <? totalOutAmount then
        Ok ({| bestSplit := currentSplit;
               bestOutAmount := totalOutAmount;
               outCache := outCache st |}, [])
      else Ok (st, [])
  | route :: rest =>
    match fuel with
    | O => OutOfFuel
    | S fuel' =>
        forFractions (splitRecursive fuel' maxIterations) maxIterations
          remainingInAmount currentSplit (fractionIndices maxIterations)
          route rest st
    end
  end.

Definition findBestSplitTokenIn (sortedOptimalRoutes : list Route)
    (tokenInAmount : Int) (maxIterations : Z) (cache : OutCache)
    : Result (list RouteWithInAmount * OutCache) :=
  if maxIterations <=? 0 then
    Throw (Error "maxIterations must be greater than 0")
  else
    match sortedOptimalRoutes with
    | [] => Ok ([], cache)
    | [route0] =>
        Ok ([{| route := route0; initialAmount := tokenInAmount |}], cache)
    | _ =>
        let zeroAmountRoutes :=
          map (fun route =>
                 {| routeIn := {| route := route; initialAmount := 0 |};
                    outAmount := 0 |})
            sortedOptimalRoutes in
        let? (st, _) :=
          splitRecursive (List.length zeroAmountRoutes) maxIterations
            tokenInAmount zeroAmountRoutes []
            {| bestSplit := []; bestOutAmount := 0; outCache := cache |} in
        let totalLimitAmount := sumInitialAmounts (map routeIn (bestSplit st)) in
        if totalLimitAmount <? tokenInAmount then Throw NotEnoughLiquidityError
        else Ok (map routeIn (bestSplit st), outCache st)
    end.

Definition getOptimizedRoutesByTokenIn (tokenIn : Coin)
    (tokenOutDenom : string) (paths : PathsCache) (outs : OutCache)
    : Result (list RouteWithInAmount * PathsCache * OutCache) :=
  if negb (0 <? amount tokenIn) || Nat.eqb (List.length _sortedPools) 0 then
    Ok ([], paths, outs)
  else
    let? (routes, paths) :=
      getCandidateRoutes _sortedPools _maxHops _maxRoutes
        (denom tokenIn) tokenOutDenom paths in
    let? (reverseRoutes, paths) :=
      getCandidateRoutes _sortedPools _maxHops _maxRoutes
        tokenOutDenom (denom tokenIn) paths in
    let invertedRoutes := map invertRoute reverseRoutes in
    let routes := routes ++ invertedRoutes in
    if Nat.eqb (List.length routes) 0 then Throw NoRouteError
    else
      let? top2 := top2Routes routes tokenIn in
      let? (split, outs) := findBestSplitTokenIn top2 (amount tokenIn) 10 outs in
      Ok (split, paths, outs).

End OptimizedRoutes.

(** A host sort used to exhibit concrete runs: insertion of each element
    before the first one it does not follow. *)
Fixpoint insertBy {A} (cmp : A -> A -> Z) (x : A) (l : list A) : list A :=
  match l with
  | [] => [x]
  | y :: l' => if cmp y x <=? 0 then y :: insertBy cmp x l' else x :: y :: l'
  end.

Definition insertionSort (A : Type) (cmp : A -> A -> Z) (l : list A) : list A :=
  fold_left (fun acc x => insertBy cmp x acc) l [].

(** What the router relies on from the host's sort.  A comparison sort does
    not compare an element with itself; when the comparator agrees with a
    strict total order on the distinct elements of the array, the result is
    the array in that order. *)
Definition SortContract
    (sort : forall A : Type, (A -> A -> Z) -> list A -> list A) : Prop :=
  forall (A : Type) (cmp : A -> A -> Z) (lt : A -> A -> Prop) (l : list A),
    NoDup l ->
    (forall a b c, In a l -> In b l -> In c l -> lt a b -> lt b c -> lt a c) ->
    (forall a b, In a l -> In b l -> a <> b -> lt a b \/ lt b a) ->
    (forall a b, In a l -> In b l -> lt a b -> cmp a b < 0 /\ 0 < cmp b a) ->
    Permutation l (sort A cmp l) /\ StronglySorted lt (sort A cmp l).

(** A pool graph for concrete runs: two pools between A and B and one
    between A and C. *)
Definition poolOf (poolId : string) (denoms : list string) (limit : Int)
    : RoutablePool :=
  {| id := poolId; poolAssetDenoms := denoms;
     getLimitAmountByTokenIn := fun _ => Ok limit |}.

Definition poolAB1 : RoutablePool := poolOf "1" ["A"; "B"] 1000.
Definition poolAB2 : RoutablePool := poolOf "2" ["A"; "B"] 1000.
Definition poolAC : RoutablePool := poolOf "3" ["A"; "C"] 1000.
Definition revisitPools : list RoutablePool := [poolAB1; poolAB2; poolAC].



(** Two single-pool routes and a quote that pays out the amount put in, for
    concrete runs of the split search. *)
Definition routeVia (pool : RoutablePool) (tokenIn tokenOut : string) : Route :=
  {| pools := [pool]; tokenOutDenoms := [tokenOut]; tokenInDenom := tokenIn |}.



(** Candidates for concrete runs of the ranking: a direct route through a
    pool whose limit is 5, and two routes of two pools; the weight of a route
    is the sum of the values locked in its pools. *)
Definition poolACsmall : RoutablePool := poolOf "4" ["A"; "C"] 5.
Definition poolBC : RoutablePool := poolOf "5" ["B"; "C"] 1000.

Definition directRoute : Route := routeVia poolACsmall "A" "C".
Definition routeAB1C : Route :=
  {| pools := [poolAB1; poolBC]; tokenOutDenoms := ["B"; "C"];
     tokenInDenom := "A" |}.
Definition routeAB2C : Route :=
  {| pools := [poolAB2; poolBC]; tokenOutDenoms := ["B"; "C"];
     tokenInDenom := "A" |}.

Definition lockedValue (poolId : string) : Dec :=
  if String.eqb poolId "4" then Dec.ofInt 50
  else if String.eqb poolId "1" then Dec.ofInt 20
  else if String.eqb poolId "2" then Dec.ofInt 10
  else Dec.ofInt 5.

Definition sumOfLockedValue (r : Route) (tvl : string -> Dec) : Dec :=
  fold_right (fun pool acc => Dec.add (tvl (id pool)) acc) (Dec.ofInt 0)
    (pools r).

(** One pass of the loop of [approxRoot] for a square root changes the guess
    by half the difference between [dec / guess] and the guess, truncated. *)
Definition newtonDelta (dec guess : Dec) : Dec :=
  Z.quot (Dec.quo dec guess - guess) 2.

(** The price of a tick in closed form, as an integer mantissa: the band
    [Z.quot tickIndex (9 * 10^-e)], the exponent of the additive increment in
    that band, and the price [10^band + ticks * increment]. *)
Definition ticksPerBand (exponentAtPriceOne : Z) : Z :=
  9 * 10 ^ (- exponentAtPriceOne).

Definition tickExponent (tickIndex exponentAtPriceOne : Z) : Z :=
  exponentAtPriceOne
  + Z.quot tickIndex (ticksPerBand exponentAtPriceOne)
  - (if tickIndex <? 0 then 1 else 0).

Definition tickPrice (tickIndex exponentAtPriceOne : Z) : Dec :=
  let band := Z.quot tickIndex (ticksPerBand exponentAtPriceOne) in
  10 ^ (band + 18)
  + (tickIndex - band * ticksPerBand exponentAtPriceOne)
    * 10 ^ (tickExponent tickIndex exponentAtPriceOne + 18).

(** What the tick math computes from an exponent, checked against the closed
    forms: the number of ticks per band and the tick bounds. *)
Definition exponentFacts (e : Z) : bool :=
  (Dec.mul nine (Dec.pow (Dec.ofInt 10) (- e)) =? Dec.ofInt (ticksPerBand e))
  && (fst (computeMinMaxTicksFromExponentAtPriceOne e) =? -18 * ticksPerBand e)
  && (snd (computeMinMaxTicksFromExponentAtPriceOne e) =? 38 * ticksPerBand e).

(** [estimateInitialTickBounds] of [tick.ts]: the first tick bound to query,
    from the sqrt-price the whole input would reach in the current tick's
    liquidity. *)
Definition estimateInitialTickBounds (tokenIn : Coin) (token0Denom : string)
    (currentSqrtPrice currentTickLiquidity : Dec) (exponentAtPriceOne : Z)
    : Result Int :=
  let isZeroForOne := String.eqb (denom tokenIn) token0Denom in
  let? sqrtPriceTarget :=
    if isZeroForOne then
      let? q := Dec.quoChecked Dec.quo currentTickLiquidity
                  (Dec.ofInt (amount tokenIn)) in
      let estimate := Dec.sub currentSqrtPrice q in
      Ok (if Dec.gt estimate minSpotPrice then estimate else minSpotPrice)
    else
      let? q := Dec.quoChecked Dec.quo (Dec.ofInt (amount tokenIn))
                  currentTickLiquidity in
      let estimate := Dec.add currentSqrtPrice q in
      Ok (if Dec.lt estimate maxSpotPrice then estimate else maxSpotPrice) in
  let price := Dec.pow sqrtPriceTarget 2 in
  priceToTick price exponentAtPriceOne.

(** ** The concentrated-liquidity pool class

    [ConcentratedLiquidityPool], in the second half of [math.ts]: the part of
    the class that reads only the raw pool data.  [current_sqrt_price] is the
    decimal the raw string denotes.  The message of the missing-asset error is
    built in full from its template. *)
Module ConcentratedLiquidityPool.

Record Raw : Type := {
  id : string;
  token0 : string;
  token1 : string;
  current_sqrt_price : Dec
}.

Definition poolAssetDenoms (raw : Raw) : list string :=
  [token0 raw; token1 raw].

Definition hasPoolAsset (raw : Raw) (denom : string) : bool :=
  existsb (fun asset => String.eqb asset denom) (poolAssetDenoms raw).

Definition validateDenoms (raw : Raw) (tokenDenoms : list string)
    : Result unit :=
  let uniqueSet := nodup string_dec tokenDenoms in
  if negb (Nat.eqb (List.length uniqueSet) (List.length tokenDenoms)) then
    Throw (Error "Duplicate denoms")
  else if negb (forallb (hasPoolAsset raw) tokenDenoms) then
    Throw (Error ("Pool " ++ id raw ++ " doesn't have the pool asset for "
                  ++ String.concat ", " tokenDenoms))
  else Ok tt.

Definition spotPrice (raw : Raw) (baseDenom : string)
    (sqrtPriceToken1OverToken0 : Dec) : Result Dec :=
  if String.eqb baseDenom (token0 raw) then
    Ok (Dec.pow sqrtPriceToken1OverToken0 2)
  else
    Dec.quoChecked Dec.quo (Dec.ofInt 1) (Dec.pow sqrtPriceToken1OverToken0 2).

Definition getSpotPriceInOverOut (raw : Raw) (tokenInDenom tokenOutDenom : string)
    : Result Dec :=
  let? _ := validateDenoms raw [tokenInDenom; tokenOutDenom] in
  spotPrice raw tokenOutDenom (current_sqrt_price raw).

Definition getSpotPriceOutOverIn (raw : Raw) (tokenInDenom tokenOutDenom : string)
    : Result Dec :=
  let? _ := validateDenoms raw [tokenInDenom; tokenOutDenom] in
  spotPrice raw tokenInDenom (current_sqrt_price raw).

Definition getSpotPriceInOverOutWithoutSwapFee (raw : Raw)
    (tokenInDenom tokenOutDenom : string) : Result Dec :=
  let? _ := validateDenoms raw [tokenInDenom; tokenOutDenom] in
  spotPrice raw tokenOutDenom (current_sqrt_price raw).

Definition getSpotPriceOutOverInWithoutSwapFee (raw : Raw)
    (tokenInDenom tokenOutDenom : string) : Result Dec :=
  let? _ := validateDenoms raw [tokenInDenom; tokenOutDenom] in
  spotPrice raw tokenInDenom (current_sqrt_price raw).

Definition getLimitAmountByTokenIn (raw : Raw) (denom : string) : Result Int :=
  let? _ := validateDenoms raw [denom] in
  Throw (Error "Not implemented").

End ConcentratedLiquidityPool.

(** The pool as the router sees it ([implements RoutablePool]). *)
Definition concentratedRoutablePool (raw : ConcentratedLiquidityPool.Raw)
    : RoutablePool :=
  {| id := ConcentratedLiquidityPool.id raw;
     poolAssetDenoms := ConcentratedLiquidityPool.poolAssetDenoms raw;
     getLimitAmountByTokenIn :=
       ConcentratedLiquidityPool.getLimitAmountByTokenIn raw |}.

(** ** The router's constructor

    The [reduce] of the constructor of [OptimizedRoutes], over the pools
    already sorted by value locked: a preferred pool is put at the front
    ([unshift]), any other at the back ([push]). *)
Definition isPreferredPool (preferredPoolIds : option (list string))
    (pool : RoutablePool) : bool :=
  match preferredPoolIds with
  | Some ids => includes ids (id pool)
  | None => false
  end.

Definition liftPreferredPools (preferredPoolIds : option (list string))
    (sortedPools : list RoutablePool) : list RoutablePool :=
  fold_left
    (fun pools pool =>
       if isPreferredPool preferredPoolIds pool then pool :: pools
       else pools ++ [pool])
    sortedPools [].

(** ** Keys of the liquidity-net query store

    [encodeKey] and [decodeKey] of the store of liquidity-net queries: the
    key is the pool id and the token-in denomination joined by a dash, and it
    is decoded by [split("-")], of which the first two parts are kept. *)
Module QueryLiquidityNetInDirection.

Record QueryStoreParams : Type := {
  poolId : string;
  tokenInDenom : option string
}.

Definition dash : Ascii.ascii := Ascii.ascii_of_nat 45.

(** [s.split("-")]. *)
Fixpoint splitDash (s : string) : list string :=
  match s with
  | EmptyString => [EmptyString]
  | String c s' =>
      if Ascii.eqb c dash then EmptyString :: splitDash s'
      else
        match splitDash s' with
        | [] => [String c EmptyString]
        | part :: parts => String c part :: parts
        end
  end.

Definition encodeKey (poolId tokenInDenom : string) : string :=
  poolId ++ "-" ++ tokenInDenom.

Definition decodeKey (key : string) : QueryStoreParams :=
  match splitDash key with
  | [] => {| poolId := EmptyString; tokenInDenom := None |}
  | [poolId] => {| poolId := poolId; tokenInDenom := None |}
  | poolId :: tokenInDenom :: _ =>
      {| poolId := poolId; tokenInDenom := Some tokenInDenom |}
  end.

Fixpoint hasDash (s : string) : bool :=
  match s with
  | EmptyString => false
  | String c s' => Ascii.eqb c dash || hasDash s'
  end.

(** The part of a string before its first dash. *)
Fixpoint beforeDash (s : string) : string :=
  match s with
  | EmptyString => EmptyString
  | String c s' =>
      if Ascii.eqb c dash then EmptyString else String c (beforeDash s')
  end.

End QueryLiquidityNetInDirection.

(** ** A liquidity position

    The getters [claimableFees] and [claimableIncentives] of
    [ObservableQueryLiquidityPositionById]: each returns nothing when its
    field of the raw response is missing, and otherwise maps an array of the
    response to pretty coins.  The pretty coin of a denomination and an amount
    (currency lookup and [CoinPretty]) is taken as given. *)
Module LiquidityPositionById.

Record LiquidityPosition : Type := {
  claimable_fees : option (list (string * string));
  claimable_incentives : option (list (string * string))
}.

Section Getters.

Variable CoinPretty : Type.
Variable coinPretty : string -> string -> CoinPretty.

Definition claimableFees (_raw : option LiquidityPosition)
    : Result (list CoinPretty) :=
  match _raw with
  | None => Ok []
  | Some raw =>
      match claimable_fees raw with
      | None => Ok []
      | Some fees => Ok (map (fun '(denom, amount) => coinPretty denom amount) fees)
      end
  end.

Definition claimableIncentives (_raw : option LiquidityPosition)
    : Result (list CoinPretty) :=
  match _raw with
  | None => Ok []
  | Some raw =>
      match claimable_incentives raw with
      | None => Ok []
      | Some _ =>
          match claimable_fees raw with
          | None =>
              Throw (Error "Cannot read properties of undefined (reading 'map')")
          | Some fees =>
              Ok (map (fun '(denom, amount) => coinPretty denom amount) fees)
          end
      end
  end.

End Getters.

End LiquidityPositionById.




(** * Properties *)

(** ** Fixed-point facts *)

Lemma one_eq : Dec.one = 1000000000000000000.
Proof. reflexivity. Qed.

Lemma one_pos : 0 < Dec.one.
Proof. rewrite one_eq; lia. Qed.

Lemma ofInt_le_smallest (n : Int) :
  Dec.gt (Dec.ofInt n) smallestDec = false <-> n <= 0.
Proof.
  unfold Dec.gt, Dec.ofInt, smallestDec. rewrite one_eq.
  rewrite Z.ltb_ge. lia.
Qed.

Lemma truncate_zero : Dec.truncate (Dec.ofInt 0) = 0.
Proof. reflexivity. Qed.

(** ** The quote loop *)

(** C1. On the reference fixture (liquidity 1517882343.751510418088349649,
    sqrt-price 70.710678118654752440, precision factor -4, zero fee),
    swapping in 42000000 of the quote asset returns 8396, and the loop ends
    at sqrt-price 70.738348247484497717, from whichever tick of the list the
    walk starts. *)
Theorem C1_single_position_usdc_to_eth :
  Forall
    (fun curTickIndex =>
       fixtureCalcOutGivenIn {| denom := "usdc"; amount := 42000000 |}
         fixtureTicks curTickIndex = Ok 8396
       /\ exists swapState,
            fixtureCalcOutGivenInState {| denom := "usdc"; amount := 42000000 |}
              fixtureTicks curTickIndex = Ok swapState
            /\ sqrtPrice swapState = decOfDigits 70 738348247484497717)
    [0; 1; 2].
Proof.
  repeat constructor; try (vm_compute; reflexivity);
    eexists; split; try (vm_compute; reflexivity); vm_compute; reflexivity.
Qed.

Lemma swapLoop_exhausted s2t strategy limit e ticks st st' :
  afterTicks s2t strategy limit e ticks st = Some st' ->
  swapContinues limit st' = true ->
  swapLoop s2t strategy limit e ticks st
  = Throw (TickOverflowError "Not enough ticks to calculate swap").
Proof.
  revert st. induction ticks as [|nextTick ticks IH]; intros st Hafter Hcont.
  - simpl in Hafter. injection Hafter as ->. simpl. now rewrite Hcont.
  - simpl in Hafter |- *.
    destruct (swapContinues limit st); [|discriminate].
    destruct (swapStep s2t strategy e nextTick st) as [st1| |];
      try discriminate.
    simpl. now apply IH.
Qed.

(** C2. Whatever the strategies and inputs, when every tick from
    [curTickIndex] on has been consumed by a pass of the loop and the loop
    condition still holds, [calcOutGivenIn] throws [TickOverflowError]; on the
    single-tick fixture, swapping in 5300000000 of the quote asset with zero
    fee does so. *)
Theorem C2_tick_overflow :
  (forall zfo ofz s2t tokenIn tokenDenom0 poolLiquidity tickDepths
          curTickIndex curTick curSqrtPrice precisionFactorAtPriceOne swapFee
          priceLimit swapState',
      (let '(sqrtPriceLimit, swapStrategy, swapState) :=
         swapSetup zfo ofz tokenIn tokenDenom0 poolLiquidity curTick
           curSqrtPrice swapFee priceLimit in
       afterTicks s2t swapStrategy sqrtPriceLimit precisionFactorAtPriceOne
         (ticksFrom tickDepths curTickIndex) swapState = Some swapState'
       /\ swapContinues sqrtPriceLimit swapState' = true) ->
      calcOutGivenIn zfo ofz s2t tokenIn tokenDenom0 poolLiquidity tickDepths
        curTickIndex curTick curSqrtPrice precisionFactorAtPriceOne swapFee
        priceLimit
      = Throw (TickOverflowError "Not enough ticks to calculate swap"))
  /\ fixtureCalcOutGivenIn {| denom := "usdc"; amount := 5300000000 |}
       [315000] 0
     = Throw (TickOverflowError "Not enough ticks to calculate swap").
Proof.
  split; [|vm_compute; reflexivity].
  intros zfo ofz s2t tokenIn tokenDenom0 poolLiquidity tickDepths curTickIndex
    curTick curSqrtPrice e swapFee priceLimit st' H.
  unfold calcOutGivenIn, calcOutGivenInState.
  destruct (swapSetup zfo ofz tokenIn tokenDenom0 poolLiquidity curTick
              curSqrtPrice swapFee priceLimit) as [[limit strategy] st0].
  destruct H as [Hafter Hcont].
  now rewrite (swapLoop_exhausted _ _ _ _ _ _ _ Hafter Hcont).
Qed.

(** The hypothesis of C2 holds on the single-tick fixture: the one tick is
    consumed and input remains. *)
Lemma C2_tick_overflow_witness :
  exists swapState',
    (let '(sqrtPriceLimit, swapStrategy, swapState) :=
       swapSetup ZeroForOneStrategy OneForZeroStrategy
         {| denom := "usdc"; amount := 5300000000 |} "eth" fixtureLiquidity
         310000 fixtureSqrtPrice (Dec.ofInt 0) (Dec.ofInt 0) in
     afterTicks sqrtPriceToTick swapStrategy sqrtPriceLimit (-4)
       (ticksFrom [315000] 0) swapState = Some swapState'
     /\ swapContinues sqrtPriceLimit swapState' = true)
    /\ calcOutGivenIn ZeroForOneStrategy OneForZeroStrategy sqrtPriceToTick
         {| denom := "usdc"; amount := 5300000000 |} "eth" fixtureLiquidity
         [315000] 0 310000 fixtureSqrtPrice (-4) (Dec.ofInt 0) (Dec.ofInt 0)
       = Throw (TickOverflowError "Not enough ticks to calculate swap").
Proof.
  eexists. split.
  - vm_compute. split; reflexivity.
  - apply (proj1 C2_tick_overflow) with
      (swapState' :=
         {| amountRemaining := 61322417000000000000000000;
            amountCalculated := 998976618347426388356620;
            sqrtPrice := 74161984870956629487;
            tick := 310000;
            liquidity := 1518197343751510418088349649;
            feeGrowthGlobal := 0 |}).
    vm_compute. split; reflexivity.
Defined.

(** C9. A token-in whose amount, as a decimal, is at most the smallest
    decimal makes [calcOutGivenIn] return 0: the loop condition fails before
    the first pass, so the result is the same for every tick list and start
    index, the empty list included, and nothing is thrown. *)
Theorem C9_dust_input_returns_zero
    zfo ofz s2t tokenIn tokenDenom0 poolLiquidity tickDepths curTickIndex
    curTick curSqrtPrice precisionFactorAtPriceOne swapFee priceLimit :
  Dec.lte (Dec.ofInt (amount tokenIn)) smallestDec = true ->
  calcOutGivenIn zfo ofz s2t tokenIn tokenDenom0 poolLiquidity tickDepths
    curTickIndex curTick curSqrtPrice precisionFactorAtPriceOne swapFee
    priceLimit
  = Ok 0.
Proof.
  intros Hle.
  unfold calcOutGivenIn, calcOutGivenInState, swapSetup.
  assert (Hgt : Dec.gt (Dec.ofInt (amount tokenIn)) smallestDec = false).
  { unfold Dec.lte in Hle. unfold Dec.gt.
    apply Z.leb_le in Hle. apply Z.ltb_ge. exact Hle. }
  destruct (ticksFrom tickDepths curTickIndex); simpl;
    unfold swapContinues; simpl; rewrite Hgt; reflexivity.
Qed.

Lemma C9_dust_input_returns_zero_witness :
  Dec.lte (Dec.ofInt 0) smallestDec = true
  /\ calcOutGivenIn ZeroForOneStrategy OneForZeroStrategy sqrtPriceToTick
       {| denom := "usdc"; amount := 0 |} "eth" fixtureLiquidity [] 0 310000
       fixtureSqrtPrice (-4) (Dec.ofInt 0) (Dec.ofInt 0)
     = Ok 0.
Proof.
  split; [reflexivity|].
  apply C9_dust_input_returns_zero. reflexivity.
Defined.

(** ** The fee of a swap step *)

(** C4, as stated, fails at a zero swap fee: with the target not reached, 10
    remaining and 3 consumed, the fee returned is 0 and not the 7 left. *)
Lemma C4_zero_fee_counterexample :
  getFeeChargePerSwapStepOutGivenIn false (Dec.ofInt 3) (Dec.ofInt 10)
    (Dec.ofInt 0) = Ok (Dec.ofInt 0)
  /\ Dec.sub (Dec.ofInt 10) (Dec.ofInt 3) = Dec.ofInt 7
  /\ Dec.ofInt 7 <> Dec.ofInt 0.
Proof. vm_compute. repeat split. discriminate. Qed.

(** C4, amended.  For a swap fee in [0,1): a zero fee charges nothing; a
    positive fee charges [amountIn * swapFee / (1 - swapFee)] when the target
    was reached and the remaining input less the amount consumed otherwise,
    and a negative value of that expression is an error, not a result.  A
    returned fee is never negative. *)
Theorem C4_fee_charge (hasReachedTarget : bool)
    (amountIn amountSpecifiedRemaining swapFee : Dec) :
  0 <= swapFee < Dec.one ->
  let charge :=
    if hasReachedTarget then
      Dec.quo (Dec.mul amountIn swapFee) (Dec.sub (Dec.ofInt 1) swapFee)
    else Dec.sub amountSpecifiedRemaining amountIn in
  let result :=
    getFeeChargePerSwapStepOutGivenIn hasReachedTarget amountIn
      amountSpecifiedRemaining swapFee in
  (swapFee = 0 -> result = Ok (Dec.ofInt 0))
  /\ (0 < swapFee -> 0 <= charge -> result = Ok charge)
  /\ (0 < swapFee -> charge < 0 ->
      result = Throw (Error "Fee charge should be non-negative"))
  /\ (forall fee, result = Ok fee -> 0 <= fee).
Proof.
  intros Hfee charge result.
  assert (Hneg : Dec.isNegative swapFee = false)
    by (unfold Dec.isNegative; apply Z.ltb_ge; lia).
  assert (Hden : Dec.isZero (Dec.sub (Dec.ofInt 1) swapFee) = false).
  { unfold Dec.isZero, Dec.sub, Dec.ofInt. apply Z.eqb_neq. lia. }
  assert (Hpos : 0 < swapFee -> result
            = if Dec.isNegative charge
              then Throw (Error "Fee charge should be non-negative")
              else Ok charge).
  { intros Hp. subst result charge.
    unfold getFeeChargePerSwapStepOutGivenIn. rewrite Hneg.
    replace (Dec.isZero swapFee) with false
      by (symmetry; unfold Dec.isZero; apply Z.eqb_neq; lia).
    destruct hasReachedTarget.
    - unfold Dec.quoChecked. rewrite Hden. reflexivity.
    - reflexivity. }
  repeat split.
  - intros ->. subst result. unfold getFeeChargePerSwapStepOutGivenIn.
    reflexivity.
  - intros Hp Hc. rewrite (Hpos Hp).
    replace (Dec.isNegative charge) with false; [reflexivity|].
    symmetry. unfold Dec.isNegative. apply Z.ltb_ge. exact Hc.
  - intros Hp Hc. rewrite (Hpos Hp).
    replace (Dec.isNegative charge) with true; [reflexivity|].
    symmetry. unfold Dec.isNegative. apply Z.ltb_lt. exact Hc.
  - intros fee Hres.
    destruct (Z.eq_dec swapFee 0) as [->|Hnz].
    + subst result. unfold getFeeChargePerSwapStepOutGivenIn in Hres.
      cbn [Dec.isNegative Dec.isZero Z.ltb Z.eqb Z.compare] in Hres.
      injection Hres as <-. unfold Dec.ofInt. lia.
    + rewrite Hpos in Hres by lia.
      destruct (Dec.isNegative charge) eqn:Hc; [discriminate|].
      injection Hres as <-. unfold Dec.isNegative in Hc.
      apply Z.ltb_ge in Hc. exact Hc.
Qed.

Lemma C4_fee_charge_witness :
  0 <= decOfDigits 0 10000000000000000 < Dec.one
  /\ getFeeChargePerSwapStepOutGivenIn false (Dec.ofInt 3) (Dec.ofInt 10)
       (decOfDigits 0 10000000000000000) = Ok (Dec.ofInt 7).
Proof.
  split; [vm_compute; split; [discriminate|reflexivity]|].
  apply (C4_fee_charge false (Dec.ofInt 3) (Dec.ofInt 10)
           (decOfDigits 0 10000000000000000)).
  - vm_compute; split; [discriminate|reflexivity].
  - vm_compute; reflexivity.
  - vm_compute. discriminate.
Defined.

(** ** Tick math: the guards of [tickToSqrtPrice] *)

Lemma getTenExponentN_in_range (e : Z) :
  exponentOutOfRange e = false ->
  getTenExponentN (- e) = Ok (Dec.pow (Dec.ofInt 10) (- e)).
Proof.
  unfold exponentOutOfRange, exponentAtPriceOneMax, exponentAtPriceOneMin.
  intros H. apply orb_false_iff in H. destruct H as [H1 H2].
  apply Z.ltb_ge in H1, H2.
  unfold getTenExponentN.
  replace (- e <? - Dec.precision) with false; [reflexivity|].
  symmetry. apply Z.ltb_ge. unfold Dec.precision. lia.
Qed.

(** C7, as stated, fails at tick index 0: an exponent outside the range is
    accepted and the result is one. *)
Lemma C7_tick_zero_counterexample :
  exponentOutOfRange 1 = true
  /\ tickToSqrtPrice 0 1 = Ok (Dec.ofInt 1).
Proof. split; vm_compute; reflexivity. Qed.

(** C7, amended.  For every tick index other than 0: an exponent outside the
    global range is a range error, and so is a tick index outside
    [minTick, maxTick] of an exponent within the range.  Tick index 0 returns
    one before either check. *)
Theorem C7_range_errors (tickIndex : Int) (exponentAtPriceOne : Z) :
  (tickIndex <> 0 ->
   exponentOutOfRange exponentAtPriceOne = true ->
   tickToSqrtPrice tickIndex exponentAtPriceOne
   = Throw (Error "exponentAtPriceOne is out of range"))
  /\ (tickIndex <> 0 ->
      exponentOutOfRange exponentAtPriceOne = false ->
      tickIndex < minTick exponentAtPriceOne
      \/ maxTick exponentAtPriceOne < tickIndex ->
      tickToSqrtPrice tickIndex exponentAtPriceOne
      = Throw (Error "tickIndex is out of range"))
  /\ tickToSqrtPrice 0 exponentAtPriceOne = Ok (Dec.ofInt 1).
Proof.
  repeat split.
  - intros Hnz Hout. unfold tickToSqrtPrice, tickToPrice.
    replace (tickIndex =? 0) with false by (symmetry; apply Z.eqb_neq; exact Hnz).
    rewrite Hout. reflexivity.
  - intros Hnz Hin Hrange. unfold tickToSqrtPrice, tickToPrice.
    replace (tickIndex =? 0) with false by (symmetry; apply Z.eqb_neq; exact Hnz).
    rewrite Hin. cbn [guard bind].
    rewrite (getTenExponentN_in_range _ Hin). cbn [bind].
    unfold minTick, maxTick in Hrange.
    destruct (computeMinMaxTicksFromExponentAtPriceOne exponentAtPriceOne)
      as [lo hi]. cbn [fst snd] in Hrange.
    replace ((tickIndex <? lo) || (hi <? tickIndex)) with true; [reflexivity|].
    symmetry. apply orb_true_iff.
    destruct Hrange; [left|right]; apply Z.ltb_lt; assumption.
Qed.

Lemma C7_range_errors_witness :
  (5 <> 0 /\ exponentOutOfRange 1 = true
   /\ tickToSqrtPrice 5 1 = Throw (Error "exponentAtPriceOne is out of range"))
  /\ (3421 <> 0 /\ exponentOutOfRange (-1) = false /\ maxTick (-1) < 3421
      /\ tickToSqrtPrice 3421 (-1) = Throw (Error "tickIndex is out of range")).
Proof.
  split.
  - split; [discriminate|]. split; [vm_compute; reflexivity|].
    apply (proj1 (C7_range_errors 5 1)); [discriminate|vm_compute; reflexivity].
  - split; [discriminate|]. split; [vm_compute; reflexivity|].
    split; [vm_compute; reflexivity|].
    apply (proj1 (proj2 (C7_range_errors 3421 (-1))));
      [discriminate|vm_compute; reflexivity|right; vm_compute; reflexivity].
Defined.

(** ** Route discovery *)

(** C10 at a concrete pool set.  With two A-B pools and one A-C pool, the
    search from A to C returns the route through all three pools (A to B, back
    to A, on to C) with only two token-out denominations, B and C: the hop
    back to the token-in denomination is not recorded. *)
Theorem C10_route_length_mismatch :
  exists found cache,
    getCandidateRoutes revisitPools 4 4 "A" "C" [] = Ok (found, cache)
    /\ In {| pools := [poolAB1; poolAB2; poolAC];
             tokenOutDenoms := ["B"; "C"];
             tokenInDenom := "A" |} found.
Proof.
  eexists. eexists. split.
  - vm_compute. reflexivity.
  - left. reflexivity.
Qed.

(** ** The split search *)

Lemma chopRoundPos_bounds p d :
  0 < p -> 0 <= d ->
  d / p <= Dec.chopPrecisionAndRoundPos p d <= d / p + 1.
Proof.
  intros Hp Hd. unfold Dec.chopPrecisionAndRoundPos.
  destruct (d mod p =? 0); [lia|].
  destruct (d mod p <? p / 2); [lia|].
  destruct (p / 2 <? d mod p); [lia|].
  destruct (Z.even (d / p)); lia.
Qed.

Lemma chopRoundPos_exact p d :
  d mod p = 0 -> Dec.chopPrecisionAndRoundPos p d = d / p.
Proof.
  intros H. unfold Dec.chopPrecisionAndRoundPos. rewrite H. reflexivity.
Qed.

Lemma chopRound_nonneg p d :
  0 <= d -> Dec.chopRound p d = Dec.chopPrecisionAndRoundPos p d.
Proof.
  intros H. unfold Dec.chopRound.
  replace (d <? 0) with false; [reflexivity|]. symmetry. apply Z.ltb_ge. lia.
Qed.



Lemma sumInitialAmounts_from l a :
  fold_left (fun acc r => acc + initialAmount r) l a
  = a + sumInitialAmounts l.
Proof.
  unfold sumInitialAmounts. revert a.
  induction l as [|r l IH]; intros a; cbn [fold_left]; [lia|].
  rewrite (IH (a + initialAmount r)), (IH (0 + initialAmount r)). lia.
Qed.



Section SplitSearch.

Variable cacheKeyForRoute : RouteWithInAndOutAmount -> string.
Variable calculateTokenOutByTokenIn : list RouteWithInAmount -> Result Int.
Variable maxIterations : Z.
Variable total : Int.
Hypothesis maxIterations_pos : 0 < maxIterations.




End SplitSearch.



(** ** Ranking the candidate routes *)

Section InsertionSort.

Variable A : Type.
Variable cmp : A -> A -> Z.
Variable lt : A -> A -> Prop.
Variable universe : list A.
Hypothesis lt_trans :
  forall a b c, In a universe -> In b universe -> In c universe ->
                lt a b -> lt b c -> lt a c.
Hypothesis lt_total :
  forall a b, In a universe -> In b universe -> a <> b -> lt a b \/ lt b a.
Hypothesis cmp_lt :
  forall a b, In a universe -> In b universe -> lt a b ->
              cmp a b < 0 /\ 0 < cmp b a.

Lemma insertBy_perm x l : Permutation (x :: l) (insertBy cmp x l).
Proof.
  induction l as [|y l IH]; simpl; [reflexivity|].
  destruct (cmp y x <=? 0); [|reflexivity].
  rewrite perm_swap. now constructor.
Qed.

Lemma insertBy_sorted x l :
  In x universe -> incl l universe -> ~ In x l ->
  StronglySorted lt l -> StronglySorted lt (insertBy cmp x l).
Proof.
  intros Hx Hl Hnot Hs.
  induction Hs as [|y l Hs IH Hall]; simpl.
  - constructor; constructor.
  - assert (Hy : In y universe) by (apply Hl; now left).
    assert (Hxy : y <> x) by (intros ->; apply Hnot; now left).
    assert (Hl' : incl l universe)
      by (intros z Hz; apply Hl; now right).
    destruct (cmp y x <=? 0) eqn:Hc.
    + apply Z.leb_le in Hc.
      assert (Hlt : lt y x).
      { destruct (lt_total y x Hy Hx Hxy) as [H|H]; [exact H|].
        destruct (cmp_lt x y Hx Hy H) as [_ H']. lia. }
      constructor.
      * apply IH; [exact Hl'|]. intros Hin. apply Hnot. now right.
      * apply Forall_forall. intros z Hz.
        apply (Permutation_in _ (Permutation_sym (insertBy_perm x l))) in Hz.
        destruct Hz as [<-|Hz]; [exact Hlt|].
        rewrite Forall_forall in Hall. now apply Hall.
    + apply Z.leb_gt in Hc.
      assert (Hlt : lt x y).
      { destruct (lt_total y x Hy Hx Hxy) as [H|H]; [|exact H].
        destruct (cmp_lt y x Hy Hx H) as [H' _]. lia. }
      constructor.
      * now constructor.
      * constructor; [exact Hlt|].
        apply Forall_forall. intros z Hz.
        rewrite Forall_forall in Hall.
        apply (lt_trans x y z); auto.
  Qed.

Lemma insertionSort_from l :
  forall acc,
    NoDup (acc ++ l) -> incl (acc ++ l) universe ->
    StronglySorted lt acc ->
    Permutation (acc ++ l) (fold_left (fun acc x => insertBy cmp x acc) l acc)
    /\ StronglySorted lt (fold_left (fun acc x => insertBy cmp x acc) l acc).
Proof.
  induction l as [|x l IH]; intros acc Hnd Hin Hs; simpl.
  - rewrite app_nil_r. split; [reflexivity|exact Hs].
  - assert (Hp : Permutation (acc ++ x :: l) (insertBy cmp x acc ++ l)).
    { rewrite <- Permutation_middle.
      change (x :: acc ++ l) with ((x :: acc) ++ l).
      apply Permutation_app_tail, insertBy_perm. }
    destruct (IH (insertBy cmp x acc)) as [Hperm Hsorted].
    + apply (Permutation_NoDup Hp Hnd).
    + intros z Hz. apply Hin.
      apply (Permutation_in _ (Permutation_sym Hp) Hz).
    + apply insertBy_sorted.
      * apply Hin, in_elt.
      * intros z Hz. apply Hin, in_or_app. now left.
      * apply NoDup_remove_2 in Hnd. intros H. apply Hnd.
        apply in_or_app. now left.
      * exact Hs.
    + split; [|exact Hsorted].
      now rewrite Hp.
Qed.

End InsertionSort.

(** Insertion sort honours the contract asked of the host's sort. *)
Lemma insertionSort_contract : SortContract insertionSort.
Proof.
  intros A cmp lt l Hnd Htrans Htotal Hcmp.
  unfold insertionSort.
  apply (insertionSort_from A cmp lt l Htrans Htotal Hcmp l []).
  - exact Hnd.
  - apply incl_refl.
  - constructor.
Qed.




Section Ranking.

Variable sort : forall A : Type, (A -> A -> Z) -> list A -> list A.
Variable calculateWeightForRoute : Route -> (string -> Dec) -> Dec.
Variable tvl : string -> Dec.
Variable candidates : list Route.
Hypothesis sort_ok : SortContract sort.
Hypothesis distinct_weights :
  NoDup (routeWeightsOf calculateWeightForRoute tvl candidates).








End Ranking.


Section InsertionFirst.

Variable A : Type.
Variable cmp : A -> A -> Z.
Variable lt : A -> A -> Prop.
Variable universe : list A.
Hypothesis lt_trans :
  forall a b c, In a universe -> In b universe -> In c universe ->
                lt a b -> lt b c -> lt a c.
Hypothesis lt_total :
  forall a b, In a universe -> In b universe -> a <> b -> lt a b \/ lt b a.
Hypothesis cmp_lt :
  forall a b, In a universe -> In b universe -> lt a b ->
              cmp a b < 0 /\ 0 < cmp b a.




End InsertionFirst.


(** ** Ranking candidates of equal weight *)








(** The step after the ranking: a best-ranked direct route whose pool
    cannot take the input is dropped, and the split search gets the second
    and third routes of the sorted list. *)
Lemma direct_route_dropped :
  sortRoutesByWeight insertionSort sumOfLockedValue lockedValue
    [routeAB1C; directRoute; routeAB2C]
  = [directRoute; routeAB1C; routeAB2C]
  /\ top2Routes insertionSort sumOfLockedValue lockedValue
       [routeAB1C; directRoute; routeAB2C] {| denom := "A"; amount := 10 |}
     = Ok [routeAB1C; routeAB2C].
Proof. split; vm_compute; reflexivity. Qed.



(** ** The square root and the prices of ticks *)

Ltac Zify.zify_post_hook ::= Z.to_euclidean_division_equations.

(** [ring] on equations between decimals, which are integers. *)
Ltac zring := cbv [Dec.t Int] in *; ring.

Lemma quot2_bounds d : d - 1 <= 2 * (Z.quot d 2) <= d + 1.
Proof. lia. Qed.

Lemma mul_one_r (x : Dec) : Dec.mul x Dec.one = x.
Proof.
  pose proof one_pos as H1.
  unfold Dec.mul, Dec.chopPrecisionAndRound, Dec.chopRound.
  destruct (x * Dec.one <? 0) eqn:Hs.
  - replace (- (x * Dec.one)) with ((- x) * Dec.one) by ring.
    rewrite chopRoundPos_exact by (apply Z.mod_mul; lia).
    rewrite Z.div_mul by lia. lia.
  - rewrite chopRoundPos_exact by (apply Z.mod_mul; lia).
    now rewrite Z.div_mul by lia.
Qed.

Lemma pow_1 (x : Dec) : Dec.pow x 1 = x.
Proof.
  unfold Dec.pow, Dec.powPos. cbn [Z.eqb Z.ltb Z.compare Z.log2 Z.to_nat Nat.add Dec.powLoop].
  apply mul_one_r.
Qed.

Lemma quo_floor a b :
  0 <= a -> 0 < b ->
  a * Dec.one / b <= Dec.quo a b <= a * Dec.one / b + 1.
Proof.
  intros Ha Hb. pose proof one_pos as H1.
  unfold Dec.quo, Dec.chopPrecisionAndRound.
  rewrite Z.quot_div_nonneg by nia.
  assert (H0 : 0 <= a * Dec.one * Dec.one / b) by (apply Z.div_pos; nia).
  rewrite chopRound_nonneg by exact H0.
  pose proof (chopRoundPos_bounds Dec.one _ H1 H0) as Hb'.
  replace (a * Dec.one * Dec.one / b / Dec.one) with (a * Dec.one / b) in Hb'.
  - exact Hb'.
  - rewrite Z.div_div by lia.
    symmetry. apply Z.div_mul_cancel_r; lia.
Qed.

Lemma quoTruncate_2 d : Dec.quoTruncate d (Dec.ofInt 2) = Z.quot d 2.
Proof.
  pose proof one_pos as H1.
  unfold Dec.quoTruncate, Dec.chopPrecisionAndTruncate, Dec.chopTruncate, Dec.ofInt.
  rewrite Z.quot_mul_cancel_r by lia.
  assert (Hone : Dec.one = 2 * (Dec.one / 2)) by (vm_compute; reflexivity).
  set (k := Dec.one / 2) in *.
  assert (0 < k) by lia.
  rewrite Hone at 1.
  replace (d * (2 * k)) with (d * k * 2) by ring.
  rewrite Z.quot_mul by lia.
  rewrite Hone.
  apply Z.quot_mul_cancel_r; lia.
Qed.

Section Newton.

Variable P : Dec.
Hypothesis P_pos : 0 < P.

Let N := P * Dec.one.
Let s := Z.sqrt N.

Lemma s_spec : 0 < s /\ s * s <= N < (s + 1) * (s + 1).
Proof.
  pose proof one_pos.
  assert (0 <= N) by (unfold N; nia).
  pose proof (Z.sqrt_spec N H0) as Hs. fold s in Hs.
  unfold Z.succ in Hs. split; [|lia].
  assert (0 <= s) by apply Z.sqrt_nonneg.
  assert (1 <= N) by (unfold N; nia).
  nia.
Qed.

Let newton := newtonDelta P.

Lemma newton_lower x : 0 < x -> s <= x + newton x.
Proof.
  intros Hx. destruct s_spec as [Hs0 [Hs1 Hs2]].
  pose proof one_pos.
  pose proof (quo_floor P x (Z.lt_le_incl _ _ P_pos) Hx) as Hq. fold N in Hq.
  pose proof (quot2_bounds (Dec.quo P x - x)) as Hd.
  unfold newton, newtonDelta.
  set (q := Dec.quo P x) in *. set (d := Z.quot (q - x) 2) in *.
  set (f := N / x) in *.
  assert (Hf : N < x * (f + 1)).
  { unfold f. pose proof (Z.mod_pos_bound N x Hx).
    pose proof (Z.div_mod N x). nia. }
  assert (0 <= f) by (apply Z.div_pos; unfold N; nia).
  destruct (Z_le_gt_dec s (x + d)) as [|Hgt]; [assumption|exfalso].
  assert (Hsum : x + f + 1 <= 2 * s) by lia.
  assert (4 * (x * (f + 1)) <= (x + f + 1) * (x + f + 1)) by nia.
  assert ((x + f + 1) * (x + f + 1) <= (2 * s) * (2 * s)) by nia.
  nia.
Qed.

Lemma newton_upper x : s <= x -> 2 * (x + newton x) <= x + s + 4.
Proof.
  intros Hx. destruct s_spec as [Hs0 [Hs1 Hs2]].
  assert (Hx0 : 0 < x) by lia.
  pose proof (quo_floor P x (Z.lt_le_incl _ _ P_pos) Hx0) as Hq. fold N in Hq.
  pose proof (quot2_bounds (Dec.quo P x - x)) as Hd.
  unfold newton, newtonDelta.
  set (q := Dec.quo P x) in *. set (d := Z.quot (q - x) 2) in *.
  set (f := N / x) in *.
  assert (Hf : f * x <= N).
  { unfold f. pose proof (Z.mod_pos_bound N x Hx0).
    pose proof (Z.div_mod N x). nia. }
  assert (0 <= f) by (apply Z.div_pos; unfold N; pose proof one_pos; nia).
  assert (f <= s + 2) by nia.
  lia.
Qed.

Lemma newton_settled x :
  0 < x -> Z.abs (newton x) <= 1 -> x + newton x <= s + 5.
Proof.
  intros Hx0 Habs. destruct s_spec as [Hs0 [Hs1 Hs2]].
  pose proof (quo_floor P x (Z.lt_le_incl _ _ P_pos) Hx0) as Hq. fold N in Hq.
  pose proof (quot2_bounds (Dec.quo P x - x)) as Hd.
  unfold newton, newtonDelta in *.
  set (q := Dec.quo P x) in *. set (d := Z.quot (q - x) 2) in *.
  set (f := N / x) in *.
  assert (Hf : f * x <= N).
  { unfold f. pose proof (Z.mod_pos_bound N x Hx0).
    pose proof (Z.div_mod N x). nia. }
  assert (x - 4 <= f) by lia.
  destruct (Z_le_gt_dec x (s + 4)) as [|Hgt]; [lia|exfalso].
  assert ((x - 4) * x <= N) by nia.
  nia.
Qed.

Lemma approxRootLoop_step iters x d :
  0 < x ->
  approxRootLoop (S iters) P 2 x d
  = if 1 <? Z.abs d then approxRootLoop iters P 2 (x + newton x) (newton x)
    else x.
Proof.
  intros Hx. cbn [approxRootLoop].
  unfold Dec.gt, Dec.abs, smallestDec.
  destruct (1 <? Z.abs d); [|reflexivity].
  replace (2 - 1) with 1 by reflexivity. rewrite pow_1.
  replace (Dec.isZero x) with false
    by (symmetry; unfold Dec.isZero; apply Z.eqb_neq; lia).
  unfold Dec.sub, Dec.add. rewrite quoTruncate_2. reflexivity.
Qed.

Lemma approxRootLoop_bounds C iters :
  forall (k : nat) x d,
    s <= x ->
    (x - s - 4) * 2 ^ Z.of_nat k <= C ->
    C < 2 ^ Z.of_nat (k + iters) ->
    (Z.abs d <= 1 -> x <= s + 5) ->
    s <= approxRootLoop iters P 2 x d <= s + 5.
Proof.
  destruct s_spec as [Hs0 _].
  induction iters as [|iters IH]; intros k x d Hlo Hpot HC Hd.
  - simpl. rewrite Nat.add_0_r in HC.
    assert (0 < 2 ^ Z.of_nat k) by (apply Z.pow_pos_nonneg; lia).
    split; [exact Hlo|]. nia.
  - rewrite approxRootLoop_step by lia.
    destruct (1 <? Z.abs d) eqn:Hc.
    + apply (IH (S k)).
      * apply newton_lower. lia.
      * pose proof (newton_upper x Hlo).
        rewrite Nat2Z.inj_succ, Z.pow_succ_r by lia.
        assert (0 < 2 ^ Z.of_nat k) by (apply Z.pow_pos_nonneg; lia).
        nia.
      * replace (S k + iters)%nat with (k + S iters)%nat by lia. exact HC.
      * apply newton_settled. lia.
    + apply Z.ltb_ge in Hc. split; [exact Hlo|]. now apply Hd.
Qed.

End Newton.

Theorem approxSqrt_bounds (P : Dec) :
  0 < P < 2 ^ 256 ->
  Z.sqrt (P * Dec.one) <= approxSqrt P <= Z.sqrt (P * Dec.one) + 5.
Proof.
  intros [Hpos Hmax]. pose proof one_pos as H1.
  unfold approxSqrt, approxRoot.
  replace (Dec.isNegative P) with false
    by (symmetry; unfold Dec.isNegative; apply Z.ltb_ge; lia).
  unfold approxRootNonNeg.
  replace (2 =? 1) with false by reflexivity.
  replace (Dec.isZero P) with false
    by (symmetry; unfold Dec.isZero; apply Z.eqb_neq; lia).
  cbn [orb]. unfold Dec.equals.
  replace (Dec.ofInt 1) with Dec.one by (unfold Dec.ofInt; lia).
  destruct (P =? Dec.one) eqn:Heq.
  - apply Z.eqb_eq in Heq. subst P.
    rewrite Z.sqrt_square by lia. lia.
  - replace (2 =? 0) with false by reflexivity.
    change 300%nat with (S 299).
    rewrite approxRootLoop_step by lia.
    replace (1 <? Z.abs Dec.one) with true by (vm_compute; reflexivity).
    apply (approxRootLoop_bounds P Hpos (2 ^ 258) 299 0).
    + apply newton_lower; assumption.
    + pose proof (quot2_bounds (Dec.quo P Dec.one - Dec.one)) as Hd.
      pose proof (quo_floor P Dec.one (Z.lt_le_incl _ _ Hpos) H1) as Hq.
      rewrite Z.div_mul in Hq by lia.
      unfold newtonDelta. simpl Z.of_nat. rewrite Z.pow_0_r, Z.mul_1_r.
      pose proof (Z.sqrt_nonneg (P * Dec.one)).
      assert (Dec.one < 2 ^ 256) by (vm_compute; reflexivity).
      assert (2 * 2 ^ 256 <= 2 ^ 258) by (vm_compute; discriminate).
      lia.
    + vm_compute. reflexivity.
    + apply newton_settled; assumption.
Qed.

Lemma exponent_cases e :
  exponentOutOfRange e = false -> -12 <= e <= -1.
Proof.
  unfold exponentOutOfRange, exponentAtPriceOneMax, exponentAtPriceOneMin.
  intros H. apply orb_false_iff in H. destruct H as [H1 H2].
  apply Z.ltb_ge in H1, H2. lia.
Qed.

Lemma exponentFacts_ok e : -12 <= e <= -1 -> exponentFacts e = true.
Proof.
  intros H.
  assert (Hall : forallb exponentFacts
                   (map (fun k => Z.of_nat k - 12) (seq 0 12)) = true)
    by (vm_compute; reflexivity).
  rewrite forallb_forall in Hall. apply Hall.
  apply in_map_iff. exists (Z.to_nat (e + 12)). split; [lia|].
  apply in_seq. lia.
Qed.

Lemma pow10_table n :
  -18 <= n <= 38 -> Dec.pow (Dec.ofInt 10) n = 10 ^ (n + 18).
Proof.
  intros H.
  assert (Hall : forallb (fun n => Dec.pow (Dec.ofInt 10) n =? 10 ^ (n + 18))
                   (map (fun k => Z.of_nat k - 18) (seq 0 57)) = true)
    by (vm_compute; reflexivity).
  rewrite forallb_forall in Hall.
  apply Z.eqb_eq. apply Hall.
  apply in_map_iff. exists (Z.to_nat (n + 18)). split; [lia|].
  apply in_seq. lia.
Qed.

Lemma truncate_ofInt n : Dec.truncate (Dec.ofInt n) = n.
Proof.
  unfold Dec.truncate, Dec.chopPrecisionAndTruncate, Dec.chopTruncate, Dec.ofInt.
  apply Z.quot_mul. pose proof one_pos; lia.
Qed.

Lemma div_one_one n D :
  0 <= n -> 0 < D ->
  n * Dec.one * Dec.one / D / Dec.one / Dec.one = n / D.
Proof.
  intros Hn HD. pose proof one_pos as H1.
  rewrite !Z.div_div by nia.
  replace (n * Dec.one * Dec.one) with (n * (Dec.one * Dec.one)) by ring.
  replace (D * Dec.one * Dec.one) with (D * (Dec.one * Dec.one)) by ring.
  apply Z.div_mul_cancel_r; nia.
Qed.

Lemma quot_one_one n D :
  0 <= n -> 0 < D ->
  Z.quot (Z.quot (Z.quot (n * Dec.one * Dec.one) D) Dec.one) Dec.one
  = Z.quot n D.
Proof.
  intros Hn HD. pose proof one_pos as H1.
  assert (0 <= n * Dec.one * Dec.one / D) by (apply Z.div_pos; nia).
  assert (0 <= n * Dec.one * Dec.one / D / Dec.one) by (apply Z.div_pos; lia).
  rewrite (Z.quot_div_nonneg (n * Dec.one * Dec.one)) by nia.
  rewrite (Z.quot_div_nonneg (n * Dec.one * Dec.one / D)) by lia.
  rewrite (Z.quot_div_nonneg (n * Dec.one * Dec.one / D / Dec.one)) by lia.
  rewrite (Z.quot_div_nonneg n) by lia.
  now apply div_one_one.
Qed.

Lemma quoTruncate_ints t D :
  0 < D ->
  Dec.truncate (Dec.quoTruncate (Dec.ofInt t) (Dec.ofInt D)) = Z.quot t D.
Proof.
  intros HD. pose proof one_pos as H1.
  unfold Dec.truncate, Dec.quoTruncate, Dec.chopPrecisionAndTruncate,
    Dec.chopTruncate, Dec.ofInt.
  rewrite Z.quot_mul_cancel_r by lia.
  destruct (Z_le_gt_dec 0 t) as [Ht|Ht].
  - now apply quot_one_one.
  - replace (t * Dec.one * Dec.one) with (- ((- t) * Dec.one * Dec.one)) by ring.
    rewrite !Z.quot_opp_l by lia.
    replace (Z.quot t D) with (- Z.quot (- t) D)
      by (rewrite Z.quot_opp_l by lia; lia).
    f_equal. apply quot_one_one; lia.
Qed.

Lemma chopRound_exact p x : 0 < p -> Dec.chopRound p (x * p) = x.
Proof.
  intros Hp. unfold Dec.chopRound.
  destruct (x * p <? 0) eqn:Hs.
  - replace (- (x * p)) with ((- x) * p) by ring.
    rewrite chopRoundPos_exact by (apply Z.mod_mul; lia).
    rewrite Z.div_mul by lia. lia.
  - rewrite chopRoundPos_exact by (apply Z.mod_mul; lia).
    now rewrite Z.div_mul by lia.
Qed.

Lemma bigDec_accumulate (c : Dec) (a : Int) (b : Dec) :
  BigDec.toDec
    (BigDec.add (BigDec.ofDec c)
       (BigDec.mul (BigDec.ofInt a) (BigDec.ofDec b)))
  = c + a * b.
Proof.
  unfold BigDec.toDec, BigDec.add, BigDec.mul, BigDec.ofInt, BigDec.ofDec.
  change (BigDec.precision - Dec.precision) with 18.
  assert (Hone : 0 < BigDec.one) by (vm_compute; reflexivity).
  assert (H18 : 0 < 10 ^ 18) by (vm_compute; reflexivity).
  replace (a * BigDec.one * (b * 10 ^ 18))
    with (a * b * 10 ^ 18 * BigDec.one) by ring.
  rewrite chopRound_exact by exact Hone.
  replace (c * 10 ^ 18 + a * b * 10 ^ 18) with ((c + a * b) * 10 ^ 18) by ring.
  apply Z.quot_mul. lia.
Qed.

Lemma ticksPerBand_pos e : -12 <= e <= -1 -> 90 <= ticksPerBand e.
Proof.
  intros H. unfold ticksPerBand.
  assert (10 ^ 1 <= 10 ^ (- e)) by (apply Z.pow_le_mono_r; lia).
  change (10 ^ 1) with 10 in *. lia.
Qed.

Lemma band_bounds t e :
  -12 <= e <= -1 ->
  -18 * ticksPerBand e <= t <= 38 * ticksPerBand e ->
  -18 <= Z.quot t (ticksPerBand e) <= 38.
Proof.
  intros He Ht. pose proof (ticksPerBand_pos e He) as HD.
  set (D := ticksPerBand e) in *.
  split.
  - apply Z.quot_le_lower_bound; lia.
  - apply Z.quot_le_upper_bound; lia.
Qed.

Section TickPrices.

Variable e : Z.
Hypothesis e_range : -12 <= e <= -1.

Let K := 10 ^ (- e).
Let D := ticksPerBand e.

Lemma K_bounds : 10 <= K <= 10 ^ 12 /\ D = 9 * K.
Proof.
  unfold K, D, ticksPerBand. split; [|reflexivity]. split.
  - change 10 with (10 ^ 1) at 1. apply Z.pow_le_mono_r; lia.
  - apply Z.pow_le_mono_r; lia.
Qed.

Lemma pow10_pos a : 0 < 10 ^ a \/ a < 0.
Proof.
  destruct (Z_lt_dec a 0); [now right|left].
  apply Z.pow_pos_nonneg; lia.
Qed.

Lemma pow10_split a b : 0 <= a -> 0 <= b -> 10 ^ (a + b) = 10 ^ a * 10 ^ b.
Proof. intros. apply Z.pow_add_r; assumption. Qed.

(** A tick at or above zero: the price is the increment of its band times
    [10^-e] plus the ticks into the band. *)
Lemma tickPrice_nonneg t :
  0 <= t ->
  tickExponent t e = e + t / D
  /\ tickPrice t e = 10 ^ (e + t / D + 18) * (K + t mod D).
Proof.
  intros Ht. destruct K_bounds as [[HK1 HK2] HD].
  assert (HD0 : 0 < D) by lia.
  unfold tickPrice, tickExponent. fold D.
  assert (HKe : K = 10 ^ (- e)) by reflexivity. clearbody K D.
  replace (t <? 0) with false by (symmetry; apply Z.ltb_ge; lia).
  rewrite Z.quot_div_nonneg by lia.
  assert (Hq : 0 <= t / D) by (apply Z.div_pos; lia).
  split; [lia|].
  replace (e + t / D - 0 + 18) with (e + t / D + 18) by lia.
  replace (t / D + 18) with ((e + t / D + 18) + (- e)) by ring.
  rewrite (pow10_split (e + t / D + 18) (- e)) by lia. rewrite <- HKe.
  rewrite (Z.mod_eq t D) by lia. zring.
Qed.

Lemma tickExponent_neg t :
  t < 0 -> tickExponent t e = e - (- t) / D - 1.
Proof.
  intros Ht. destruct K_bounds as [[HK1 HK2] HD].
  assert (HD0 : 0 < D) by lia.
  unfold tickExponent. fold D. clearbody K D.
  replace (t <? 0) with true by (symmetry; apply Z.ltb_lt; lia).
  replace t with (- (- t)) at 1 by lia.
  rewrite Z.quot_opp_l by lia. rewrite Z.quot_div_nonneg by lia. ring.
Qed.

(** A tick below zero whose increment is representable. *)
Lemma tickPrice_neg t :
  t < 0 ->
  -18 <= tickExponent t e ->
  tickPrice t e = 10 ^ (e - (- t) / D + 17) * (10 * K - (- t) mod D).
Proof.
  intros Ht Hrep. rewrite (tickExponent_neg t Ht) in Hrep.
  destruct K_bounds as [[HK1 HK2] HD].
  assert (HD0 : 0 < D) by lia.
  unfold tickPrice. rewrite (tickExponent_neg t Ht). fold D.
  assert (HKe : K = 10 ^ (- e)) by reflexivity. clearbody K D.
  assert (Hquot : Z.quot t D = - ((- t) / D)).
  { replace t with (- (- t)) at 1 by lia.
    rewrite Z.quot_opp_l by lia. rewrite Z.quot_div_nonneg by lia.
    reflexivity. }
  rewrite Hquot. clear Hquot.
  assert (Hq : 0 <= (- t) / D) by (apply Z.div_pos; lia).
  replace (e - (- t) / D - 1 + 18) with (e - (- t) / D + 17) by ring.
  replace (- (- t / D) + 18) with ((e - (- t) / D + 17) + (1 - e)) by ring.
  rewrite (pow10_split (e - (- t) / D + 17) (1 - e)) by lia.
  replace (1 - e) with (1 + (- e)) by ring.
  rewrite (pow10_split 1 (- e)) by lia. rewrite <- HKe. change (10 ^ 1) with 10.
  rewrite (Z.mod_eq (- t) D) by lia. zring.
Qed.

Lemma succ_div n :
  0 <= n ->
  (n mod D + 1 < D -> (n + 1) / D = n / D /\ (n + 1) mod D = n mod D + 1)
  /\ (n mod D + 1 = D -> (n + 1) / D = n / D + 1 /\ (n + 1) mod D = 0).
Proof.
  intros Hn. destruct K_bounds as [[HK1 HK2] HD].
  assert (HD0 : 0 < D) by lia. clearbody K D.
  pose proof (Z.div_mod n D ltac:(lia)) as Hdm.
  pose proof (Z.mod_pos_bound n D HD0) as Hm.
  split; intros Hr.
  - assert (Hq : (n + 1) / D = n / D)
      by (symmetry; apply (Z.div_unique (n + 1) D (n / D) (n mod D + 1)); lia).
    split; [exact Hq|].
    symmetry. apply (Z.mod_unique (n + 1) D (n / D) (n mod D + 1)); lia.
  - assert (Hq : (n + 1) / D = n / D + 1)
      by (symmetry; apply (Z.div_unique (n + 1) D (n / D + 1) 0); lia).
    split; [exact Hq|].
    symmetry. apply (Z.mod_unique (n + 1) D (n / D + 1) 0); lia.
Qed.

Lemma tickPrice_succ t :
  -18 * D <= t < 38 * D ->
  -18 <= tickExponent t e ->
  tickExponent t e <= tickExponent (t + 1) e
  /\ tickPrice t e + 10 ^ (tickExponent t e + 18) <= tickPrice (t + 1) e.
Proof.
  intros Ht Hrep. destruct K_bounds as [[HK1 HK2] HD].
  assert (HD0 : 0 < D) by lia.
  destruct (Z_le_gt_dec 0 t) as [Hsign|Hsign].
  - (* ticks at or above zero *)
    destruct (tickPrice_nonneg t Hsign) as [Hex HP].
    destruct (tickPrice_nonneg (t + 1) ltac:(lia)) as [Hex' HP'].
    rewrite Hex, Hex', HP, HP' in *.
    pose proof (Z.mod_pos_bound t D HD0) as Hm.
    assert (Hq : 0 <= t / D) by (apply Z.div_pos; lia).
    destruct (succ_div t Hsign) as [Hsame Hnext].
    clearbody K D.
    set (a := e + t / D + 18) in *.
    assert (Ha : 0 <= a) by lia.
    assert (Hpa : 0 < 10 ^ a) by (apply Z.pow_pos_nonneg; lia).
    destruct (Z_lt_dec (t mod D + 1) D) as [Hlt|Hge].
    + destruct (Hsame Hlt) as [Hq1 Hr1]. rewrite Hq1, Hr1. fold a.
      split; [lia|]. nia.
    + destruct (Hnext ltac:(lia)) as [Hq1 Hr1]. rewrite Hq1, Hr1.
      replace (e + (t / D + 1) + 18) with (Z.succ a) by (unfold a; ring).
      rewrite Z.pow_succ_r by lia.
      split; [lia|]. nia.
  - (* ticks below zero *)
    pose proof (tickExponent_neg t ltac:(lia)) as Hex.
    pose proof (tickPrice_neg t ltac:(lia) Hrep) as HP.
    rewrite Hex in Hrep. rewrite Hex, HP.
    set (n := - t) in *. assert (Hn : 1 <= n) by lia.
    pose proof (Z.mod_pos_bound n D HD0) as Hm.
    pose proof (Z.div_mod n D ltac:(lia)) as Hdm.
    assert (Hq : 0 <= n / D) by (apply Z.div_pos; lia).
    set (a := e - n / D + 17) in *.
    assert (Ha : 0 <= a) by lia.
    assert (Hpa : 0 < 10 ^ a) by (apply Z.pow_pos_nonneg; lia).
    replace (e - n / D - 1 + 18) with a by (unfold a; ring).
    destruct (Z.eq_dec n 1) as [Hone|Hmore].
    + (* the tick below zero *)
      replace (t + 1) with 0 by lia.
      destruct (tickPrice_nonneg 0 ltac:(lia)) as [Hex0 HP0].
      rewrite Hex0, HP0.
      assert (Hq0 : n / D = 0) by (apply Z.div_small; lia).
      assert (Hr0 : n mod D = 1) by (rewrite Hone; apply Z.mod_small; lia).
      rewrite Z.div_0_l, Z.mod_0_l by lia.
      replace (e + 0 + 18) with (Z.succ a) by (unfold a; rewrite Hq0; ring).
      rewrite Z.pow_succ_r by lia. rewrite Hr0.
      split; [lia|]. clearbody K D. nia.
    + assert (Hsign' : t + 1 < 0) by lia.
      pose proof (tickExponent_neg (t + 1) Hsign') as Hex'.
      replace (- (t + 1)) with (n - 1) in Hex' by lia.
      destruct (succ_div (n - 1) ltac:(lia)) as [Hsame Hnext].
      replace (n - 1 + 1) with n in * by lia.
      pose proof (Z.mod_pos_bound (n - 1) D HD0) as Hm'.
      destruct (Z_lt_dec ((n - 1) mod D + 1) D) as [Hlt|Hge].
      * destruct (Hsame Hlt) as [Hq1 Hr1].
        assert (Hrep' : -18 <= tickExponent (t + 1) e)
          by (rewrite Hex', <- Hq1; lia).
        rewrite (tickPrice_neg (t + 1) Hsign' Hrep'), Hex'.
        replace (- (t + 1)) with (n - 1) by lia.
        rewrite <- Hq1. fold a.
        split; [lia|]. clearbody K D. nia.
      * destruct (Hnext ltac:(lia)) as [Hq1 Hr1].
        assert (Hrep' : -18 <= tickExponent (t + 1) e)
          by (rewrite Hex'; lia).
        rewrite (tickPrice_neg (t + 1) Hsign' Hrep'), Hex'.
        replace (- (t + 1)) with (n - 1) by lia.
        replace (e - (n - 1) / D + 17) with (Z.succ a)
          by (unfold a; rewrite Hq1; ring).
        rewrite Z.pow_succ_r by lia.
        split; [lia|]. clearbody K D. nia.
Qed.

Lemma tickPrice_range t :
  -18 * D <= t <= 38 * D ->
  -18 <= tickExponent t e ->
  tickExponent t e <= 37
  /\ 1 <= tickPrice t e <= 10 ^ 56
  /\ tickPrice t e <= 10 ^ (tickExponent t e + 18) * 10 ^ 13.
Proof.
  intros Ht Hrep. destruct K_bounds as [[HK1 HK2] HD].
  assert (HD0 : 0 < D) by lia.
  assert (HKe : K = 10 ^ (- e)) by reflexivity.
  assert (H13 : 10 * 10 ^ 12 = 10 ^ 13) by reflexivity.
  destruct (Z_le_gt_dec 0 t) as [Hsign|Hsign].
  - destruct (tickPrice_nonneg t Hsign) as [Hex HP].
    rewrite Hex, HP in *.
    pose proof (Z.mod_pos_bound t D HD0) as Hm.
    pose proof (Z.div_mod t D ltac:(lia)) as Hdm.
    assert (Hq : 0 <= t / D) by (apply Z.div_pos; lia).
    assert (Hq38 : t / D <= 38) by (apply Z.div_le_upper_bound; lia).
    set (a := e + t / D + 18) in *.
    assert (Ha : 0 <= a) by lia.
    assert (Hpa : 0 < 10 ^ a) by (apply Z.pow_pos_nonneg; lia).
    assert (HaK : 10 ^ a * K = 10 ^ (t / D + 18)).
    { rewrite HKe, <- pow10_split by lia. f_equal. unfold a. ring. }
    clearbody K D.
    split; [lia|]. split; [split; [nia|]|nia].
    destruct (Z.eq_dec (t / D) 38) as [H38|H38].
    + assert (t mod D = 0) by nia.
      replace (K + t mod D) with K by lia.
      rewrite HaK, H38. reflexivity.
    + assert (10 ^ (t / D + 18) * 10 <= 10 ^ 56).
      { rewrite Z.mul_comm, <- Z.pow_succ_r by lia.
        apply Z.pow_le_mono_r; lia. }
      nia.
  - pose proof (tickExponent_neg t ltac:(lia)) as Hex.
    pose proof (tickPrice_neg t ltac:(lia) Hrep) as HP.
    rewrite Hex in Hrep. rewrite Hex, HP.
    set (n := - t) in *. assert (Hn : 1 <= n) by lia.
    pose proof (Z.mod_pos_bound n D HD0) as Hm.
    assert (Hq : 0 <= n / D) by (apply Z.div_pos; lia).
    set (a := e - n / D + 17) in *.
    assert (Ha : 0 <= a) by lia.
    assert (Hpa : 0 < 10 ^ a) by (apply Z.pow_pos_nonneg; lia).
    replace (e - n / D - 1 + 18) with a by (unfold a; ring).
    assert (HaK : 10 ^ a * (10 * K) = 10 ^ (18 - n / D)).
    { rewrite HKe. change 10 with (10 ^ 1) at 2.
      rewrite <- !pow10_split by lia. f_equal. unfold a. ring. }
    assert (H18 : 10 ^ (18 - n / D) <= 10 ^ 56)
      by (apply Z.pow_le_mono_r; lia).
    clearbody K D.
    split; [lia|]. split; [split; nia|nia].
Qed.

End TickPrices.

Lemma tickToPrice_formula t e :
  exponentOutOfRange e = false ->
  minTick e <= t <= maxTick e ->
  -18 <= tickExponent t e ->
  tickToPrice t e = Ok (tickPrice t e).
Proof.
  intros He Ht Hrep.
  pose proof (exponent_cases e He) as Hrange.
  pose proof (exponentFacts_ok e Hrange) as Hfacts.
  unfold exponentFacts in Hfacts.
  apply andb_prop in Hfacts. destruct Hfacts as [Hfacts Hmax].
  apply andb_prop in Hfacts. destruct Hfacts as [Hdist Hmin].
  apply Z.eqb_eq in Hdist, Hmin, Hmax.
  unfold minTick, maxTick in Ht. rewrite Hmin, Hmax in Ht.
  pose proof (ticksPerBand_pos e Hrange) as HD.
  pose proof (band_bounds t e Hrange Ht) as Hband.
  destruct (tickPrice_range e Hrange t Ht Hrep) as [Hex37 [HP _]].
  unfold tickToPrice. rewrite He. cbn [guard bind].
  rewrite (getTenExponentN_in_range e He). cbn [bind].
  rewrite Hdist.
  destruct (computeMinMaxTicksFromExponentAtPriceOne e) as [lo hi].
  cbn [fst snd] in Hmin, Hmax. subst lo hi.
  replace ((t <? -18 * ticksPerBand e) || (38 * ticksPerBand e <? t)) with false
    by (symmetry; apply orb_false_iff; split; apply Z.ltb_ge; lia).
  cbn [guard bind]. rewrite truncate_ofInt.
  unfold Dec.quoChecked.
  replace (Dec.isZero (Dec.ofInt (ticksPerBand e))) with false
    by (symmetry; unfold Dec.isZero, Dec.ofInt; apply Z.eqb_neq;
        pose proof one_pos; nia).
  cbn [bind]. rewrite quoTruncate_ints by lia.
  fold (tickExponent t e).
  assert (Hexp : (if t <? 0
                  then e + Z.quot t (ticksPerBand e) - 1
                  else e + Z.quot t (ticksPerBand e)) = tickExponent t e).
  { unfold tickExponent. destruct (t <? 0); ring. }
  rewrite Hexp.
  unfold getTenExponentN.
  replace (tickExponent t e <? - Dec.precision) with false
    by (symmetry; apply Z.ltb_ge; unfold Dec.precision; lia).
  replace (Z.quot t (ticksPerBand e) <? - Dec.precision) with false
    by (symmetry; apply Z.ltb_ge; unfold Dec.precision; lia).
  cbn [bind].
  rewrite !pow10_table by lia.
  rewrite bigDec_accumulate. fold (tickPrice t e).
  replace (10 ^ (Z.quot t (ticksPerBand e) + 18) +
           (t - Z.quot t (ticksPerBand e) * ticksPerBand e) *
           10 ^ (tickExponent t e + 18)) with (tickPrice t e) by reflexivity.
  replace (Dec.gt (tickPrice t e) maxSpotPrice
           || Dec.lt (tickPrice t e) minSpotPrice) with false.
  - reflexivity.
  - symmetry. apply orb_false_iff. unfold Dec.gt, Dec.lt, minSpotPrice.
    replace maxSpotPrice with (10 ^ 56) by (vm_compute; reflexivity).
    split; apply Z.ltb_ge; lia.
Qed.

Lemma sqrt_gap (P P' u : Z) :
  1 <= P -> P <= u * 10 ^ 13 -> 1 <= u -> P + u <= P' ->
  Z.sqrt (P * Dec.one) + 6 <= Z.sqrt (P' * Dec.one).
Proof.
  intros HP Hup Hu Hgap.
  assert (H1 : Dec.one = 10 ^ 18) by reflexivity.
  assert (H18 : 10 ^ 18 = 1000000000000000000) by reflexivity.
  assert (H13 : 10 ^ 13 = 10000000000000) by reflexivity.
  rewrite H1, H18 in *. rewrite H13 in Hup.
  set (s := Z.sqrt (P * 1000000000000000000)).
  assert (Hs : 0 <= s) by apply Z.sqrt_nonneg.
  assert (Hnn : 0 <= P * 1000000000000000000) by lia.
  pose proof (Z.sqrt_spec (P * 1000000000000000000) Hnn) as [Hlo _].
  fold s in Hlo.
  apply Z.sqrt_le_square; try lia.
  assert (Hsmall : 12 * s + 36 <= u * 1000000000000000000).
  { destruct (Z_le_gt_dec (12 * s + 36) (u * 1000000000000000000)) as [|Hgt];
      [assumption|exfalso].
    assert (144 * (s * s) <= 144 * (u * 10000000000000 * 1000000000000000000))
      by nia.
    assert (u * 1000000000000000000 - 35 <= 12 * s) by lia.
    assert (0 <= u * 1000000000000000000 - 35) by lia.
    assert ((u * 1000000000000000000 - 35) * (u * 1000000000000000000 - 35)
            <= (12 * s) * (12 * s)) by nia.
    nia. }
  nia.
Qed.


Lemma tickToSqrtPrice_formula t e :
  exponentOutOfRange e = false ->
  minTick e <= t <= maxTick e ->
  -18 <= tickExponent t e ->
  tickToSqrtPrice t e = Ok (approxSqrt (tickPrice t e)).
Proof.
  intros He Ht Hrep. unfold tickToSqrtPrice.
  destruct (t =? 0) eqn:H0.
  - apply Z.eqb_eq in H0. subst t.
    pose proof (exponent_cases e He) as Hrange.
    destruct (tickPrice_nonneg e Hrange 0 ltac:(lia)) as [_ HP].
    pose proof (ticksPerBand_pos e Hrange).
    rewrite Z.div_0_l, Z.mod_0_l in HP by lia.
    assert (Hone : tickPrice 0 e = Dec.one).
    { rewrite HP, !Z.add_0_r, <- Z.pow_add_r by lia.
      replace (e + 18 + - e) with 18 by ring. reflexivity. }
    rewrite Hone. vm_compute. reflexivity.
  - rewrite (tickToPrice_formula t e He Ht Hrep). reflexivity.
Qed.

Section Monotone.

Variable e : Z.
Hypothesis e_ok : exponentOutOfRange e = false.

Let D := ticksPerBand e.

Lemma approxSqrt_tick_succ t :
  -18 * D <= t < 38 * D ->
  -18 <= tickExponent t e ->
  -18 <= tickExponent (t + 1) e
  /\ approxSqrt (tickPrice t e) < approxSqrt (tickPrice (t + 1) e).
Proof.
  intros Ht Hrep. pose proof (exponent_cases e e_ok) as Hrange.
  destruct (tickPrice_succ e Hrange t Ht Hrep) as [Hex Hgap].
  assert (Hrep' : -18 <= tickExponent (t + 1) e) by lia.
  split; [exact Hrep'|].
  destruct (tickPrice_range e Hrange t ltac:(fold D; lia) Hrep)
    as [_ [HP Hup]].
  destruct (tickPrice_range e Hrange (t + 1) ltac:(fold D; lia) Hrep')
    as [_ [HP' _]].
  assert (Hu : 1 <= 10 ^ (tickExponent t e + 18)).
  { assert (0 < 10 ^ (tickExponent t e + 18))
      by (apply Z.pow_pos_nonneg; lia). lia. }
  pose proof (sqrt_gap _ _ _ (proj1 HP) Hup Hu Hgap) as Hs.
  assert (H256 : 10 ^ 56 < 2 ^ 256) by (vm_compute; reflexivity).
  pose proof (approxSqrt_bounds (tickPrice t e) ltac:(lia)) as Hb.
  pose proof (approxSqrt_bounds (tickPrice (t + 1) e) ltac:(lia)) as Hb'.
  lia.
Qed.

Lemma approxSqrt_tick_chain t1 :
  -18 * D <= t1 ->
  -18 <= tickExponent t1 e ->
  forall n : nat,
    t1 + Z.of_nat (S n) <= 38 * D ->
    -18 <= tickExponent (t1 + Z.of_nat (S n)) e
    /\ approxSqrt (tickPrice t1 e)
       < approxSqrt (tickPrice (t1 + Z.of_nat (S n)) e).
Proof.
  intros Ht1 Hrep n.
  induction n as [|n IH]; intros Hmax.
  - change (Z.of_nat 1) with 1.
    apply approxSqrt_tick_succ; [lia|exact Hrep].
  - destruct IH as [Hrepn Hlt]; [lia|].
    replace (t1 + Z.of_nat (S (S n))) with (t1 + Z.of_nat (S n) + 1) by lia.
    destruct (approxSqrt_tick_succ (t1 + Z.of_nat (S n)) ltac:(lia) Hrepn)
      as [Hrep' Hlt'].
    split; [exact Hrep'|lia].
Qed.

End Monotone.

(** C6 fails on the code in the lowest bands of the tick range: for
    exponent -1 the ticks -1619 and -1618 are within the tick bounds that
    [tickToSqrtPrice] itself checks, but the additive increment of their band,
    10^-19, is asked of [DecUtils.getTenExponentN], which has 18 decimals, and
    no sqrt-price is produced for either: the function throws on ticks it
    accepts, where the claim orders their sqrt-prices. *)
Lemma C6_low_band_counterexample :
  exponentOutOfRange (-1) = false
  /\ minTick (-1) <= -1619 /\ -1618 <= maxTick (-1)
  /\ tickToSqrtPrice (-1619) (-1) = Throw (Error "Too little precision")
  /\ tickToSqrtPrice (-1618) (-1) = Throw (Error "Too little precision").
Proof.
  repeat split; try (vm_compute; reflexivity); vm_compute; discriminate.
Qed.

(** X21. Where it produces values, [tickToSqrtPrice] is strictly
    increasing: for a valid exponent and valid tick indices [t1 < t2] such
    that the additive increment of the band of [t1] is representable (its
    exponent is at least -18, which holds for every [t1] at or above zero),
    both sqrt-prices are produced and the one of [t1] is strictly below the
    one of [t2], the Newton approximation of the square root included. *)
Theorem tickToSqrtPrice_strictly_increasing (e t1 t2 : Z) :
  exponentOutOfRange e = false ->
  minTick e <= t1 -> t1 < t2 -> t2 <= maxTick e ->
  -18 <= tickExponent t1 e ->
  exists p1 p2,
    tickToSqrtPrice t1 e = Ok p1 /\ tickToSqrtPrice t2 e = Ok p2 /\ p1 < p2.
Proof.
  intros He Hmin Hlt Hmax Hrep.
  pose proof (exponent_cases e He) as Hrange.
  pose proof (exponentFacts_ok e Hrange) as Hfacts.
  unfold exponentFacts in Hfacts.
  apply andb_prop in Hfacts. destruct Hfacts as [Hfacts Hhi].
  apply andb_prop in Hfacts. destruct Hfacts as [_ Hlo].
  apply Z.eqb_eq in Hlo, Hhi.
  assert (Hmin' : -18 * ticksPerBand e <= t1) by (unfold minTick in Hmin; lia).
  assert (Hmax' : t2 <= 38 * ticksPerBand e) by (unfold maxTick in Hmax; lia).
  destruct (approxSqrt_tick_chain e He t1 Hmin' Hrep
              (Z.to_nat (t2 - t1 - 1))) as [Hrep2 Hsqrt].
  { rewrite Nat2Z.inj_succ, Z2Nat.id by lia. lia. }
  replace (t1 + Z.of_nat (S (Z.to_nat (t2 - t1 - 1)))) with t2 in *
    by (rewrite Nat2Z.inj_succ, Z2Nat.id by lia; lia).
  exists (approxSqrt (tickPrice t1 e)), (approxSqrt (tickPrice t2 e)).
  split; [|split; [|exact Hsqrt]].
  - apply tickToSqrtPrice_formula; try assumption.
    unfold minTick, maxTick in *. lia.
  - apply tickToSqrtPrice_formula; try assumption.
    unfold minTick, maxTick in *. lia.
Qed.

Lemma tickToSqrtPrice_strictly_increasing_witness :
  exponentOutOfRange (-4) = false
  /\ minTick (-4) <= 305450 /\ 305450 < 315000 /\ 315000 <= maxTick (-4)
  /\ -18 <= tickExponent 305450 (-4)
  /\ exists p1 p2,
       tickToSqrtPrice 305450 (-4) = Ok p1
       /\ tickToSqrtPrice 315000 (-4) = Ok p2 /\ p1 < p2.
Proof.
  assert (H1 : exponentOutOfRange (-4) = false) by (vm_compute; reflexivity).
  assert (H2 : minTick (-4) <= 305450) by (vm_compute; discriminate).
  assert (H3 : 305450 < 315000) by lia.
  assert (H4 : 315000 <= maxTick (-4)) by (vm_compute; discriminate).
  assert (H5 : -18 <= tickExponent 305450 (-4)) by (vm_compute; discriminate).
  repeat (split; [assumption|]).
  exact (tickToSqrtPrice_strictly_increasing (-4) 305450 315000 H1 H2 H3 H4 H5).
Defined.

(** ** The round trip from a tick to its sqrt-price and back *)

Lemma powTenBigDec_table ex :
  -36 <= ex <= 38 -> powTenBigDec ex = 10 ^ (ex + 36).
Proof.
  intros H.
  assert (Hall : forallb (fun n => powTenBigDec n =? 10 ^ (n + 36))
                   (map (fun k => Z.of_nat k - 36) (seq 0 75)) = true)
    by (vm_compute; reflexivity).
  rewrite forallb_forall in Hall.
  apply Z.eqb_eq. apply Hall.
  apply in_map_iff. exists (Z.to_nat (ex + 36)). split; [lia|].
  apply in_seq. lia.
Qed.

(** One band's worth of price, as the walk adds or subtracts it. *)
Lemma band_step e ex :
  -12 <= e <= -1 -> -36 <= ex <= 38 -> 0 <= ex - e + 18 ->
  BigDec.toDec
    (BigDec.mul (BigDec.ofDec (Dec.ofInt (ticksPerBand e))) (powTenBigDec ex))
  = 9 * 10 ^ (ex - e + 18).
Proof.
  intros He Hex Hnn. rewrite powTenBigDec_table by lia.
  unfold BigDec.toDec, BigDec.mul, BigDec.ofDec, Dec.ofInt, ticksPerBand.
  change (BigDec.precision - Dec.precision) with 18.
  assert (Hone : Dec.one = 10 ^ 18) by reflexivity.
  assert (HB : BigDec.one = 10 ^ 36) by reflexivity.
  rewrite Hone, HB.
  replace (9 * 10 ^ (- e) * 10 ^ 18 * 10 ^ 18 * 10 ^ (ex + 36))
    with (9 * 10 ^ (ex - e + 18) * 10 ^ 18 * 10 ^ 36).
  - rewrite chopRound_exact by (vm_compute; reflexivity).
    apply Z.quot_mul. vm_compute. discriminate.
  - replace (ex + 36) with ((ex - e + 18) + (18 + e)) by ring.
    rewrite (Z.pow_add_r 10 (ex - e + 18) (18 + e)) by lia.
    assert (H36 : 10 ^ 36 = 10 ^ (18 + e) * 10 ^ (- e) * 10 ^ 18).
    { rewrite <- !Z.pow_add_r by lia. f_equal. ring. }
    rewrite H36. ring.
Qed.

Section Walk.

Variable e : Z.
Hypothesis e_range : -12 <= e <= -1.
Variable price : Dec.

Local Abbreviation D := (ticksPerBand e).

Lemma pow10_succ a : 0 <= a -> 10 ^ (a + 1) = 10 * 10 ^ a.
Proof. intros. now rewrite Z.pow_add_r, Z.mul_comm by lia. Qed.

Lemma priceWalk_up j (m : nat) :
  forall k fuel increment,
    0 <= k -> k + Z.of_nat m = j + 1 -> j <= 37 ->
    (m <= fuel)%nat ->
    10 ^ (j + 18) < price <= 10 ^ (j + 19) ->
    priceWalk fuel true price (Dec.ofInt D) (10 ^ (k + 18)) (k * D) (e + k)
      increment
    = Ok {| currentPrice := 10 ^ (j + 19);
            ticksPassed := (j + 1) * D;
            currentAdditiveIncrementInTicks :=
              match m with
              | O => increment
              | S _ => 10 ^ (e + j + 36)
              end |}.
Proof.
  induction m as [|m IH]; intros k fuel increment Hk Hkm Hj Hfuel Hprice.
  - assert (k = j + 1) by lia. subst k.
    destruct fuel; cbn [priceWalk]; unfold Dec.lt;
      replace (10 ^ (j + 1 + 18) <? price) with false
        by (symmetry; apply Z.ltb_ge;
            replace (j + 1 + 18) with (j + 19) by ring; lia);
      replace (j + 1 + 18) with (j + 19) by ring; reflexivity.
  - destruct fuel as [|fuel]; [lia|].
    cbn [priceWalk]. unfold Dec.lt.
    assert (Hle : 10 ^ (k + 18) <= 10 ^ (j + 18))
      by (apply Z.pow_le_mono_r; lia).
    replace (10 ^ (k + 18) <? price) with true
      by (symmetry; apply Z.ltb_lt; lia).
    cbv zeta. rewrite band_step by lia.
    rewrite truncate_ofInt. unfold Dec.add.
    replace (e + k - e + 18) with (k + 18) by ring.
    replace (10 ^ (k + 18) + 9 * 10 ^ (k + 18)) with (10 ^ (k + 1 + 18))
      by (replace (k + 1 + 18) with (k + 18 + 1) by ring;
          rewrite pow10_succ by lia; ring).
    replace (k * D + D) with ((k + 1) * D) by ring.
    replace (e + k + 1) with (e + (k + 1)) by ring.
    rewrite (IH (k + 1) fuel (powTenBigDec (e + k))); try lia.
    destruct m as [|m'].
    + assert (k = j) by lia. subst k.
      rewrite powTenBigDec_table by lia. reflexivity.
    + reflexivity.
Qed.

Lemma priceWalk_down j (m : nat) :
  forall k fuel increment,
    0 <= k -> k + Z.of_nat m = j + 1 -> j <= 17 ->
    (m <= fuel)%nat ->
    10 ^ (17 - j) <= price < 10 ^ (18 - j) ->
    priceWalk fuel false price (Dec.ofInt D) (10 ^ (18 - k)) (- k * D)
      (e - 1 - k) increment
    = Ok {| currentPrice := 10 ^ (17 - j);
            ticksPassed := - (j + 1) * D;
            currentAdditiveIncrementInTicks :=
              match m with
              | O => increment
              | S _ => 10 ^ (e - 1 - j + 36)
              end |}.
Proof.
  induction m as [|m IH]; intros k fuel increment Hk Hkm Hj Hfuel Hprice.
  - assert (k = j + 1) by lia. subst k.
    destruct fuel; cbn [priceWalk]; unfold Dec.gt;
      replace (18 - (j + 1)) with (17 - j) by ring;
      replace (price <? 10 ^ (17 - j)) with false
        by (symmetry; apply Z.ltb_ge; lia);
      reflexivity.
  - destruct fuel as [|fuel]; [lia|].
    cbn [priceWalk]. unfold Dec.gt.
    assert (Hle : 10 ^ (18 - j) <= 10 ^ (18 - k))
      by (apply Z.pow_le_mono_r; lia).
    replace (price <? 10 ^ (18 - k)) with true
      by (symmetry; apply Z.ltb_lt; lia).
    cbv zeta. rewrite band_step by lia.
    rewrite truncate_ofInt. unfold Dec.sub.
    replace (e - 1 - k - e + 18) with (17 - k) by ring.
    replace (10 ^ (18 - k) - 9 * 10 ^ (17 - k)) with (10 ^ (18 - (k + 1)))
      by (replace (18 - k) with (17 - k + 1) by ring;
          replace (18 - (k + 1)) with (17 - k) by ring;
          rewrite pow10_succ by lia; ring).
    replace (- k * D - D) with (- (k + 1) * D) by ring.
    replace (e - 1 - k - 1) with (e - 1 - (k + 1)) by ring.
    rewrite (IH (k + 1) fuel (powTenBigDec (e - 1 - k))); try lia.
    destruct m as [|m'].
    + assert (k = j) by lia. subst k.
      rewrite powTenBigDec_table by lia. reflexivity.
    + reflexivity.
Qed.

End Walk.

(** ** The ticks still to be filled, and the square of a square root *)

Lemma chopRound_opp p d : 0 < p -> Dec.chopRound p (- d) = - Dec.chopRound p d.
Proof.
  intros Hp. unfold Dec.chopRound.
  destruct (Z.lt_trichotomy d 0) as [H|[H|H]].
  - replace (- d <? 0) with false by (symmetry; apply Z.ltb_ge; lia).
    replace (d <? 0) with true by (symmetry; apply Z.ltb_lt; lia). lia.
  - subst d. reflexivity.
  - replace (- d <? 0) with true by (symmetry; apply Z.ltb_lt; lia).
    replace (d <? 0) with false by (symmetry; apply Z.ltb_ge; lia).
    now rewrite Z.opp_involutive.
Qed.

Lemma ticksToFill_opp (x : Dec) (increment : BigDec) :
  Dec.truncate (BigDec.toDec (BigDec.quo (BigDec.ofDec (- x)) increment))
  = - Dec.truncate (BigDec.toDec (BigDec.quo (BigDec.ofDec x) increment)).
Proof.
  unfold Dec.truncate, Dec.chopPrecisionAndTruncate, Dec.chopTruncate,
    BigDec.toDec, BigDec.quo, BigDec.ofDec.
  assert (HB : 0 < BigDec.one) by (vm_compute; reflexivity).
  replace (- x * 10 ^ (BigDec.precision - Dec.precision) * BigDec.one
           * BigDec.one)
    with (- (x * 10 ^ (BigDec.precision - Dec.precision) * BigDec.one
             * BigDec.one)) by ring.
  destruct (Z.eq_dec increment 0) as [->|Hinc].
  - assert (Hq0 : forall a, Z.quot a 0 = 0) by (intros []; reflexivity).
    rewrite !Hq0. reflexivity.
  - rewrite Z.quot_opp_l by assumption.
    rewrite chopRound_opp by assumption.
    rewrite Z.quot_opp_l by (vm_compute; discriminate).
    rewrite Z.quot_opp_l by (vm_compute; discriminate).
    reflexivity.
Qed.

Lemma ticksToFill_nonneg (x : Dec) E :
  0 <= x -> 0 <= E <= 72 ->
  x / 10 ^ E
  <= Dec.truncate
       (BigDec.toDec (BigDec.quo (BigDec.ofDec x) (10 ^ (E + 18))))
  <= x / 10 ^ E + 1
  /\ (2 * (x mod 10 ^ E) <= 10 ^ E ->
      Dec.truncate
        (BigDec.toDec (BigDec.quo (BigDec.ofDec x) (10 ^ (E + 18))))
      = x / 10 ^ E).
Proof.
  intros Hx HE.
  unfold Dec.truncate, Dec.chopPrecisionAndTruncate, Dec.chopTruncate,
    BigDec.toDec, BigDec.quo, BigDec.ofDec.
  change (BigDec.precision - Dec.precision) with 18.
  change BigDec.one with (10 ^ 36). change Dec.one with (10 ^ 18).
  assert (Hu : 0 < 10 ^ E) by (apply Z.pow_pos_nonneg; lia).
  assert (HT : 0 < 10 ^ (72 - E)) by (apply Z.pow_pos_nonneg; lia).
  assert (HuT : 10 ^ E * 10 ^ (72 - E) = 10 ^ 72)
    by (rewrite <- Z.pow_add_r by lia; f_equal; lia).
  rewrite (Z.pow_add_r 10 E 18) by lia.
  set (u := 10 ^ E) in *. set (T := 10 ^ (72 - E)) in *.
  replace (x * 10 ^ 18 * 10 ^ 36 * 10 ^ 36) with (x * T * (u * 10 ^ 18)).
  2:{ replace (x * T * (u * 10 ^ 18)) with (x * (u * T) * 10 ^ 18) by ring.
      rewrite HuT. change (10 ^ 72) with (10 ^ 36 * 10 ^ 36). ring. }
  rewrite Z.quot_mul by (assert (0 < 10 ^ 18) by (vm_compute; reflexivity); nia).
  assert (HxT : 0 <= x * T) by nia.
  rewrite chopRound_nonneg by assumption.
  assert (H36 : 0 < 10 ^ 36) by (vm_compute; reflexivity).
  pose proof (chopRoundPos_bounds (10 ^ 36) (x * T) H36 HxT) as HR.
  set (R := Dec.chopPrecisionAndRoundPos (10 ^ 36) (x * T)) in *.
  assert (HR0 : 0 <= R).
  { assert (0 <= x * T / 10 ^ 36) by (apply Z.div_pos; lia). lia. }
  assert (H18 : 0 < 10 ^ 18) by (vm_compute; reflexivity).
  rewrite (Z.quot_div_nonneg R) by lia.
  rewrite Z.quot_div_nonneg by (try apply Z.div_pos; lia).
  rewrite Z.div_div by lia.
  change (10 ^ 18 * 10 ^ 18) with (10 ^ 36).
  pose proof (Z.div_mod x u ltac:(lia)) as Hdm.
  pose proof (Z.mod_pos_bound x u Hu) as Hmod.
  set (q := x / u) in *. set (rho := x mod u) in *.
  assert (HxTq : x * T = q * 10 ^ 72 + rho * T)
    by (rewrite Hdm, <- HuT; ring).
  assert (Hw : 0 <= rho * T < 10 ^ 72) by (rewrite <- HuT; nia).
  assert (Hw2 : 2 * rho <= u -> 2 * (rho * T) <= 10 ^ 72)
    by (intros; rewrite <- HuT; nia).
  rewrite HxTq in HR. clearbody R q rho u T.
  set (w := rho * T) in *. clearbody w.
  change (10 ^ 72) with 1000000000000000000000000000000000000000000000000000000000000000000000000 in *.
  change (10 ^ 36) with 1000000000000000000000000000000000000 in *.
  split; [|intros H2; specialize (Hw2 H2)]; lia.
Qed.

Lemma pow_2 (x : Dec) : Dec.pow x 2 = Dec.mul x x.
Proof.
  unfold Dec.pow, Dec.powPos.
  cbn [Z.eqb Z.ltb Z.compare Pos.compare Pos.compare_cont Z.log2 Pos.size
       Z.to_nat Pos.to_nat Pos.iter_op Nat.add Dec.powLoop Z.rem Z.quot
       Z.quotrem Z.pos_div_eucl N.pos_div_eucl fst snd].
  vm_compute (Z.to_nat (Z.log2 2) + 1)%nat.
  cbn [Dec.powLoop].
  change (1 <? 2) with true. change (Z.rem 2 2 =? 0) with true.
  change (Z.quot 2 2) with 1. change (1 <? 1) with false.
  cbv iota. apply mul_one_r.
Qed.



(** ** [priceToTick] on a price inside a band *)

Lemma exponent_ok e : -12 <= e <= -1 -> exponentOutOfRange e = false.
Proof.
  intros H. unfold exponentOutOfRange, exponentAtPriceOneMax,
    exponentAtPriceOneMin.
  apply orb_false_iff. split; apply Z.ltb_ge; lia.
Qed.

Lemma tick_bounds e :
  -12 <= e <= -1 ->
  computeMinMaxTicksFromExponentAtPriceOne e
  = (-18 * ticksPerBand e, 38 * ticksPerBand e).
Proof.
  intros H. pose proof (exponentFacts_ok e H) as Hfacts.
  unfold exponentFacts in Hfacts.
  apply andb_prop in Hfacts. destruct Hfacts as [Hfacts Hhi].
  apply andb_prop in Hfacts. destruct Hfacts as [_ Hlo].
  apply Z.eqb_eq in Hlo, Hhi.
  destruct (computeMinMaxTicksFromExponentAtPriceOne e) as [lo hi].
  cbn [fst snd] in *. now subst.
Qed.

Lemma band_distance e :
  -12 <= e <= -1 ->
  getTenExponentN (- e) = Ok (Dec.pow (Dec.ofInt 10) (- e))
  /\ Dec.mul nine (Dec.pow (Dec.ofInt 10) (- e)) = Dec.ofInt (ticksPerBand e).
Proof.
  intros H. split.
  - unfold getTenExponentN.
    replace (- e <? - Dec.precision) with false; [reflexivity|].
    symmetry. apply Z.ltb_ge. change Dec.precision with 18. lia.
  - pose proof (exponentFacts_ok e H) as Hfacts.
    unfold exponentFacts in Hfacts.
    apply andb_prop in Hfacts. destruct Hfacts as [Hfacts _].
    apply andb_prop in Hfacts. destruct Hfacts as [Hd _].
    now apply Z.eqb_eq in Hd.
Qed.

Lemma priceToTick_up e (price : Dec) j tick :
  -12 <= e <= -1 -> 0 <= j <= 37 ->
  10 ^ (j + 18) < price <= 10 ^ (j + 19) ->
  tick = (j + 1) * ticksPerBand e
         + Dec.truncate
             (BigDec.toDec
                (BigDec.quo (BigDec.ofDec (price - 10 ^ (j + 19)))
                   (10 ^ (e + j + 36)))) ->
  -18 * ticksPerBand e <= tick <= 38 * ticksPerBand e ->
  priceToTick price e = Ok tick.
Proof.
  intros He Hj Hprice Htick Hbounds.
  destruct (band_distance e He) as [Hten Hdist].
  assert (H18 : 10 ^ 18 <= 10 ^ (j + 18)) by (apply Z.pow_le_mono_r; lia).
  assert (H56 : 10 ^ (j + 19) <= 10 ^ 56) by (apply Z.pow_le_mono_r; lia).
  change (10 ^ 18) with 1000000000000000000 in H18.
  change (10 ^ 56) with 100000000000000000000000000000000000000000000000000000000 in H56.
  unfold priceToTick.
  replace (Dec.equals price (Dec.ofInt 1)) with false
    by (symmetry; apply Z.eqb_neq; change (Dec.ofInt 1) with 1000000000000000000; lia).
  replace (Dec.isNegative price) with false
    by (symmetry; apply Z.ltb_ge; lia).
  replace (Dec.gt price maxSpotPrice) with false
    by (symmetry; apply Z.ltb_ge;
        change maxSpotPrice with 100000000000000000000000000000000000000000000000000000000; lia).
  replace (Dec.lt price minSpotPrice) with false
    by (symmetry; apply Z.ltb_ge; change minSpotPrice with 1; lia).
  rewrite (exponent_ok e He).
  cbn [guard bind orb].
  unfold calculatePriceAndTicksPassed. rewrite Hten. cbn [bind].
  rewrite Hdist.
  replace (Dec.gt price (Dec.ofInt 1)) with true
    by (symmetry; apply Z.ltb_lt; change (Dec.ofInt 1) with 1000000000000000000; lia).
  change (Dec.ofInt 1) with (10 ^ (0 + 18)).
  replace 0 with (0 * ticksPerBand e) at 2 by ring.
  replace e with (e + 0) at 3 by ring.
  rewrite (priceWalk_up e He price j (Z.to_nat (j + 1))) by (unfold walkFuel; lia).
  replace (Z.to_nat (j + 1)) with (S (Z.to_nat j)) by lia.
  cbn [bind currentPrice ticksPassed currentAdditiveIncrementInTicks].
  rewrite (tick_bounds e He).
  unfold Dec.sub. rewrite <- Htick.
  replace ((tick <? -18 * ticksPerBand e) || (38 * ticksPerBand e <? tick))
    with false; [reflexivity|].
  symmetry. apply orb_false_iff. split; apply Z.ltb_ge; lia.
Qed.

Lemma priceToTick_down e (price : Dec) j tick :
  -12 <= e <= -1 -> 0 <= j <= 17 ->
  10 ^ (17 - j) <= price < 10 ^ (18 - j) ->
  tick = - (j + 1) * ticksPerBand e
         + Dec.truncate
             (BigDec.toDec
                (BigDec.quo (BigDec.ofDec (price - 10 ^ (17 - j)))
                   (10 ^ (e - 1 - j + 36)))) ->
  -18 * ticksPerBand e <= tick <= 38 * ticksPerBand e ->
  priceToTick price e = Ok tick.
Proof.
  intros He Hj Hprice Htick Hbounds.
  destruct (band_distance e He) as [Hten Hdist].
  assert (H18 : 10 ^ (18 - j) <= 10 ^ 18) by (apply Z.pow_le_mono_r; lia).
  assert (H0 : 0 < 10 ^ (17 - j)) by (apply Z.pow_pos_nonneg; lia).
  change (10 ^ 18) with 1000000000000000000 in H18.
  unfold priceToTick.
  replace (Dec.equals price (Dec.ofInt 1)) with false
    by (symmetry; apply Z.eqb_neq; change (Dec.ofInt 1) with 1000000000000000000; lia).
  replace (Dec.isNegative price) with false
    by (symmetry; apply Z.ltb_ge; lia).
  replace (Dec.gt price maxSpotPrice) with false
    by (symmetry; apply Z.ltb_ge;
        change maxSpotPrice with 100000000000000000000000000000000000000000000000000000000; lia).
  replace (Dec.lt price minSpotPrice) with false
    by (symmetry; apply Z.ltb_ge; change minSpotPrice with 1; lia).
  rewrite (exponent_ok e He).
  cbn [guard bind orb].
  unfold calculatePriceAndTicksPassed. rewrite Hten. cbn [bind].
  rewrite Hdist.
  replace (Dec.gt price (Dec.ofInt 1)) with false
    by (symmetry; apply Z.ltb_ge; change (Dec.ofInt 1) with 1000000000000000000; lia).
  change (Dec.ofInt 1) with (10 ^ (18 - 0)).
  replace 0 with (- 0 * ticksPerBand e) at 2 by ring.
  replace (e - 1) with (e - 1 - 0) at 1 by ring.
  rewrite (priceWalk_down e He price j (Z.to_nat (j + 1))) by (unfold walkFuel; lia).
  replace (Z.to_nat (j + 1)) with (S (Z.to_nat j)) by lia.
  cbn [bind currentPrice ticksPassed currentAdditiveIncrementInTicks].
  rewrite (tick_bounds e He).
  unfold Dec.sub. rewrite <- Htick.
  replace ((tick <? -18 * ticksPerBand e) || (38 * ticksPerBand e <? tick))
    with false; [reflexivity|].
  symmetry. apply orb_false_iff. split; apply Z.ltb_ge; lia.
Qed.

Lemma ticksToFill_value (a c : Z) E :
  0 <= E <= 72 -> 0 <= a -> 0 <= c < 10 ^ E ->
  a <= Dec.truncate
         (BigDec.toDec
            (BigDec.quo (BigDec.ofDec (a * 10 ^ E + c)) (10 ^ (E + 18))))
    <= a + 1
  /\ (2 * c <= 10 ^ E ->
      Dec.truncate
        (BigDec.toDec
           (BigDec.quo (BigDec.ofDec (a * 10 ^ E + c)) (10 ^ (E + 18))))
      = a).
Proof.
  intros HE Ha Hc.
  assert (Hx : 0 <= a * 10 ^ E + c) by nia.
  destruct (ticksToFill_nonneg (a * 10 ^ E + c) E Hx HE) as [Hb Hex].
  assert (Hdiv : (a * 10 ^ E + c) / 10 ^ E = a)
    by (symmetry; apply (Z.div_unique _ _ a c); [lia|ring]).
  assert (Hmod : (a * 10 ^ E + c) mod 10 ^ E = c)
    by (symmetry; apply (Z.mod_unique _ _ a c); [lia|ring]).
  rewrite Hdiv in Hb, Hex. rewrite Hmod in Hex. split; assumption.
Qed.

Section RoundTrip.

Variable e : Z.
Hypothesis e_range : -12 <= e <= -1.

Local Abbreviation K := (10 ^ (- e)).
Local Abbreviation D := (ticksPerBand e).


(** A price at the bottom of band [b] above one, or an error [d] below it:
    the tick found is the bottom tick of the band. *)
Lemma priceToTick_above_edge b d :
  1 <= b <= 38 -> d <= 0 -> - 10 ^ (e + b + 18) <= 100 * d ->
  priceToTick (10 ^ (b + 18) + d) e = Ok (b * D).
Proof.
  intros Hb Hd0 Hd.
  destruct (K_bounds e e_range) as [[HK1 HK2] HD].
  assert (Hu' : 0 < 10 ^ (e + b + 17)) by (apply Z.pow_pos_nonneg; lia).
  assert (Hu : 10 ^ (e + b + 18) = 10 * 10 ^ (e + b + 17))
    by (replace (e + b + 18) with (e + b + 17 + 1) by ring;
        apply pow10_succ; lia).
  assert (HA : 10 ^ (b + 17) = 10 ^ (e + b + 17) * K)
    by (rewrite <- Z.pow_add_r by lia; f_equal; lia).
  assert (HA' : 10 ^ (b + 18) = 10 * 10 ^ (b + 17))
    by (replace (b + 18) with (b + 17 + 1) by ring; apply pow10_succ; lia).
  set (u' := 10 ^ (e + b + 17)) in *.
  set (price := 10 ^ (b + 18) + d).
  assert (Hprice : 10 ^ (b - 1 + 18) < price <= 10 ^ (b - 1 + 19)).
  { replace (b - 1 + 18) with (b + 17) by ring.
    replace (b - 1 + 19) with (b + 18) by ring.
    unfold price. rewrite HA', HA. clearbody u'. nia. }
  destruct (ticksToFill_value 0 (- d) (e + b + 17))
    as [_ Hfill]; [lia|lia|fold u'; lia|].
  fold u' in Hfill. specialize (Hfill ltac:(lia)).
  apply (priceToTick_up e price (b - 1) _ e_range ltac:(lia) Hprice).
  - replace (price - 10 ^ (b - 1 + 19)) with (- (0 * u' + - d))
      by (replace (b - 1 + 19) with (b + 18) by ring; unfold price; ring).
    rewrite ticksToFill_opp.
    replace (e + (b - 1) + 36) with (e + b + 17 + 18) by ring.
    rewrite Hfill. ring.
  - rewrite HD in *. nia.
Qed.


(** A price at the top of band [b] below one, or an error [d] above it:
    the tick found is the top tick of the band. *)
Lemma priceToTick_below_edge b d :
  1 <= b <= 17 -> -18 <= e - b - 1 -> 0 <= d ->
  100 * d <= 10 ^ (e - b + 17) ->
  priceToTick (10 ^ (18 - b) + d) e = Ok (- (b * D)).
Proof.
  intros Hb Hrep Hd0 Hd.
  destruct (K_bounds e e_range) as [[HK1 HK2] HD].
  assert (Hu : 0 < 10 ^ (e - b + 17)) by (apply Z.pow_pos_nonneg; lia).
  assert (Hu' : 10 ^ (e - b + 18) = 10 * 10 ^ (e - b + 17))
    by (replace (e - b + 18) with (e - b + 17 + 1) by ring;
        apply pow10_succ; lia).
  assert (HA : 10 ^ (17 - b) = 10 ^ (e - b + 17) * K)
    by (rewrite <- Z.pow_add_r by lia; f_equal; lia).
  assert (HA' : 10 ^ (18 - b) = 10 * 10 ^ (17 - b))
    by (replace (18 - b) with (17 - b + 1) by ring; apply pow10_succ; lia).
  assert (HA'' : 10 ^ (19 - b) = 10 * 10 ^ (18 - b))
    by (replace (19 - b) with (18 - b + 1) by ring; apply pow10_succ; lia).
  set (u := 10 ^ (e - b + 17)) in *.
  set (price := 10 ^ (18 - b) + d).
  assert (Hprice : 10 ^ (17 - (b - 1)) <= price < 10 ^ (18 - (b - 1))).
  { replace (17 - (b - 1)) with (18 - b) by ring.
    replace (18 - (b - 1)) with (19 - b) by ring.
    unfold price. rewrite HA'', HA', HA. clearbody u. nia. }
  destruct (ticksToFill_value 0 d (e - b + 18))
    as [_ Hfill]; [lia|lia|rewrite Hu'; lia|].
  rewrite Hu' in Hfill. specialize (Hfill ltac:(lia)).
  apply (priceToTick_down e price (b - 1) _ e_range ltac:(lia) Hprice).
  - replace (price - 10 ^ (17 - (b - 1))) with (0 * (10 * u) + d)
      by (replace (17 - (b - 1)) with (18 - b) by ring; unfold price; ring).
    replace (e - 1 - (b - 1) + 36) with (e - b + 18 + 18) by ring.
    rewrite Hfill. ring.
  - rewrite HD in *. nia.
Qed.

End RoundTrip.




(** * Further properties of the code *)

(** ** [math.ts] *)

(** X1. [approxSqrt] ([approxRoot] with root 2 and 300 iterations) is
    accurate to the last decimals: for a positive decimal [P] below 2^256 the
    result [r], read as a mantissa, is at most 5 units above the integer
    square root of the mantissa of [P] times 10^18, and never below it. *)
Theorem approxSqrt_accuracy (P : Dec) :
  0 < P < 2 ^ 256 ->
  0 < approxSqrt P
  /\ P * Dec.one < (approxSqrt P + 1) * (approxSqrt P + 1)
  /\ (5 <= approxSqrt P ->
      (approxSqrt P - 5) * (approxSqrt P - 5) <= P * Dec.one).
Proof.
  intros HP. pose proof (approxSqrt_bounds P HP) as Hb.
  pose proof one_pos as H1.
  assert (HN : 0 <= P * Dec.one) by nia.
  pose proof (Z.sqrt_spec (P * Dec.one) HN) as Hs. cbv zeta in Hs.
  assert (Hs1 : 1 <= Z.sqrt (P * Dec.one)).
  { change 1 with (Z.sqrt 1). apply Z.sqrt_le_mono. nia. }
  set (s := Z.sqrt (P * Dec.one)) in *. set (r := approxSqrt P) in *.
  clearbody s r. repeat split.
  - lia.
  - nia.
  - intros H5. nia.
Qed.

Lemma approxSqrt_accuracy_witness :
  0 < 2 * Dec.one < 2 ^ 256
  /\ 0 < approxSqrt (2 * Dec.one)
  /\ 2 * Dec.one * Dec.one
     < (approxSqrt (2 * Dec.one) + 1) * (approxSqrt (2 * Dec.one) + 1)
  /\ (5 <= approxSqrt (2 * Dec.one) ->
      (approxSqrt (2 * Dec.one) - 5) * (approxSqrt (2 * Dec.one) - 5)
      <= 2 * Dec.one * Dec.one).
Proof.
  assert (H : 0 < 2 * Dec.one < 2 ^ 256) by (split; vm_compute; reflexivity).
  split; [exact H|]. exact (approxSqrt_accuracy (2 * Dec.one) H).
Defined.

(** X2. [approxRoot] sends a negative decimal to the negated root of its
    negation, whatever the root: [approxSqrt] is an odd function, and on a
    negative argument the iteration bound passed in is replaced by the
    default 300. *)
Theorem approxRoot_odd (dec : Dec) (root : Z) (maxIters : nat) :
  approxSqrt (Dec.neg dec) = Dec.neg (approxSqrt dec)
  /\ (dec < 0 ->
      approxRoot dec root maxIters
      = Dec.neg (approxRoot (Dec.neg dec) root 300)).
Proof.
  split.
  - unfold approxSqrt, approxRoot, Dec.isNegative, Dec.neg.
    destruct (Z.lt_trichotomy dec 0) as [H|[H|H]].
    + replace (- dec <? 0) with false by (symmetry; apply Z.ltb_ge; lia).
      replace (dec <? 0) with true by (symmetry; apply Z.ltb_lt; lia).
      now rewrite Z.opp_involutive.
    + subst dec. reflexivity.
    + replace (- dec <? 0) with true by (symmetry; apply Z.ltb_lt; lia).
      replace (dec <? 0) with false by (symmetry; apply Z.ltb_ge; lia).
      now rewrite Z.opp_involutive.
  - intros H. unfold approxRoot, Dec.isNegative, Dec.neg.
    replace (dec <? 0) with true by (symmetry; apply Z.ltb_lt; lia).
    replace (- dec <? 0) with false by (symmetry; apply Z.ltb_ge; lia).
    reflexivity.
Qed.

(** X3. [addLiquidity] is plain addition: subtracting the absolute value of
    a negative delta is adding it, so both branches agree. *)
Theorem addLiquidity_is_add (a b : Dec) : addLiquidity a b = Dec.add a b.
Proof.
  unfold addLiquidity, Dec.lt, Dec.sub, Dec.add, Dec.abs, Dec.ofInt.
  rewrite Z.mul_0_l.
  destruct (b <? 0) eqn:Hb.
  - apply Z.ltb_lt in Hb. lia.
  - reflexivity.
Qed.

(** X4. The token amounts between two sqrt-prices do not depend on the
    order in which the two prices are given. *)
Theorem calcAmountDelta_symmetric (liquidity sqrtPriceA sqrtPriceB : Dec)
    (roundUp : bool) :
  calcAmount0Delta liquidity sqrtPriceA sqrtPriceB roundUp
  = calcAmount0Delta liquidity sqrtPriceB sqrtPriceA roundUp
  /\ calcAmount1Delta liquidity sqrtPriceA sqrtPriceB roundUp
     = calcAmount1Delta liquidity sqrtPriceB sqrtPriceA roundUp.
Proof.
  unfold calcAmount0Delta, calcAmount1Delta, Dec.gt.
  destruct (Z.lt_trichotomy sqrtPriceA sqrtPriceB) as [H|[H|H]].
  - replace (sqrtPriceB <? sqrtPriceA) with false
      by (symmetry; apply Z.ltb_ge; lia).
    replace (sqrtPriceA <? sqrtPriceB) with true
      by (symmetry; apply Z.ltb_lt; lia).
    split; reflexivity.
  - subst sqrtPriceB. split; reflexivity.
  - replace (sqrtPriceB <? sqrtPriceA) with true
      by (symmetry; apply Z.ltb_lt; lia).
    replace (sqrtPriceA <? sqrtPriceB) with false
      by (symmetry; apply Z.ltb_ge; lia).
    split; reflexivity.
Qed.

Lemma roundUpDec_spec (d : Dec) :
  d <= Dec.roundUpDec d < d + Dec.one
  /\ Dec.roundUpDec d mod Dec.one = 0.
Proof.
  pose proof one_pos as H1.
  unfold Dec.roundUpDec, Dec.roundUp, Dec.chopPrecisionAndRoundUp,
    Dec.chopRoundUp, Dec.chopTruncate, Dec.ofInt.
  split; [|apply Z.mod_mul; lia].
  rewrite one_eq in *.
  destruct (d <? 0) eqn:Hd.
  - apply Z.ltb_lt in Hd. rewrite Z.quot_div_nonneg by lia. lia.
  - apply Z.ltb_ge in Hd.
    destruct (d mod 1000000000000000000 =? 0) eqn:Hm.
    + apply Z.eqb_eq in Hm. lia.
    + apply Z.eqb_neq in Hm. lia.
Qed.

(** X5. Rounding an amount up ([roundUp = true]) gives a whole number of
    tokens that is at least the unrounded amount and less than one token
    above it, for the token1 amount and, when it is produced, for the token0
    amount. *)
Theorem calcAmountDelta_roundUp (liquidity sqrtPriceA sqrtPriceB : Dec) :
  (calcAmount1Delta liquidity sqrtPriceA sqrtPriceB false
   <= calcAmount1Delta liquidity sqrtPriceA sqrtPriceB true
   < calcAmount1Delta liquidity sqrtPriceA sqrtPriceB false + Dec.one
   /\ calcAmount1Delta liquidity sqrtPriceA sqrtPriceB true mod Dec.one = 0)
  /\ match calcAmount0Delta liquidity sqrtPriceA sqrtPriceB false,
           calcAmount0Delta liquidity sqrtPriceA sqrtPriceB true with
     | Ok exact, Ok rounded =>
         exact <= rounded < exact + Dec.one /\ rounded mod Dec.one = 0
     | Throw e, Throw e' => e = e'
     | _, _ => False
     end.
Proof.
  split.
  - unfold calcAmount1Delta.
    destruct (if Dec.gt sqrtPriceA sqrtPriceB
              then (sqrtPriceB, sqrtPriceA) else (sqrtPriceA, sqrtPriceB))
      as [lo hi].
    apply roundUpDec_spec.
  - unfold calcAmount0Delta.
    destruct (if Dec.gt sqrtPriceA sqrtPriceB
              then (sqrtPriceB, sqrtPriceA) else (sqrtPriceA, sqrtPriceB))
      as [lo hi].
    unfold Dec.quoChecked.
    destruct (Dec.isZero (Dec.mul lo hi)); cbn [bind].
    + reflexivity.
    + apply roundUpDec_spec.
Qed.

Lemma quoTruncate_le_quoRoundUp (a b : Dec) :
  0 <= a -> 0 < b ->
  0 <= Dec.quoTruncate a b <= Dec.quoRoundUp a b
  /\ Dec.quoRoundUp a b <= Dec.quoTruncate a b + 1.
Proof.
  intros Ha Hb. pose proof one_pos as H1.
  unfold Dec.quoTruncate, Dec.quoRoundUp, Dec.chopPrecisionAndTruncate,
    Dec.chopPrecisionAndRoundUp, Dec.chopTruncate, Dec.chopRoundUp.
  assert (H0 : 0 <= a * Dec.one * Dec.one) by nia.
  rewrite (Z.quot_div_nonneg (a * Dec.one * Dec.one) b) by lia.
  assert (Hq : 0 <= a * Dec.one * Dec.one / b) by (apply Z.div_pos; lia).
  set (q := a * Dec.one * Dec.one / b) in *. clearbody q.
  rewrite Z.quot_div_nonneg by lia.
  replace (q <? 0) with false by (symmetry; apply Z.ltb_ge; lia).
  rewrite one_eq in *.
  destruct (q mod 1000000000000000000 =? 0); lia.
Qed.

(** X6. Token1 moves the sqrt-price by the quotient of the amount and the
    liquidity: for a positive liquidity and a non-negative amount the price
    after an input is not below the current price, the price after an output
    is not above it, and the output moves the price at least as far as the
    input does and at most one unit of the last decimal further (the input
    quotient is truncated, the output quotient rounded up).  A zero liquidity
    is a division by zero in both. *)
Theorem getNextSqrtPriceFromAmount1_moves
    (sqrtPriceCurrent liquidity amountRemaining : Dec) :
  (liquidity = 0 ->
   getNextSqrtPriceFromAmount1InRoundingDown sqrtPriceCurrent liquidity
     amountRemaining = Throw (Error "Cannot divide by zero")
   /\ getNextSqrtPriceFromAmount1OutRoundingDown sqrtPriceCurrent liquidity
        amountRemaining = Throw (Error "Cannot divide by zero"))
  /\ (0 < liquidity -> 0 <= amountRemaining ->
      exists up down,
        getNextSqrtPriceFromAmount1InRoundingDown sqrtPriceCurrent liquidity
          amountRemaining = Ok up
        /\ getNextSqrtPriceFromAmount1OutRoundingDown sqrtPriceCurrent
             liquidity amountRemaining = Ok down
        /\ down <= sqrtPriceCurrent <= up
        /\ up - sqrtPriceCurrent <= sqrtPriceCurrent - down
           <= up - sqrtPriceCurrent + 1).
Proof.
  unfold getNextSqrtPriceFromAmount1InRoundingDown,
    getNextSqrtPriceFromAmount1OutRoundingDown, Dec.quoChecked, Dec.isZero.
  split.
  - intros ->. split; reflexivity.
  - intros HL Ha.
    replace (liquidity =? 0) with false by (symmetry; apply Z.eqb_neq; lia).
    cbn [bind].
    destruct (quoTruncate_le_quoRoundUp amountRemaining liquidity Ha HL)
      as [Hq Hr].
    eexists. eexists. split; [reflexivity|]. split; [reflexivity|].
    unfold Dec.add, Dec.sub. lia.
Qed.

Lemma getNextSqrtPriceFromAmount1_moves_witness :
  0 < 5 * Dec.one /\ 0 <= 2 * Dec.one
  /\ exists up down,
       getNextSqrtPriceFromAmount1InRoundingDown (70 * Dec.one) (5 * Dec.one)
         (2 * Dec.one) = Ok up
       /\ getNextSqrtPriceFromAmount1OutRoundingDown (70 * Dec.one)
            (5 * Dec.one) (2 * Dec.one) = Ok down
       /\ down <= 70 * Dec.one <= up
       /\ up - 70 * Dec.one <= 70 * Dec.one - down <= up - 70 * Dec.one + 1.
Proof.
  assert (HL : 0 < 5 * Dec.one) by (vm_compute; reflexivity).
  assert (Ha : 0 <= 2 * Dec.one) by (vm_compute; discriminate).
  split; [exact HL|]. split; [exact Ha|].
  exact (proj2 (getNextSqrtPriceFromAmount1_moves (70 * Dec.one) (5 * Dec.one)
                  (2 * Dec.one)) HL Ha).
Defined.

(** ** [tick.ts] *)

(** X7. For a valid exponent at price one [e] the tick range is 18 bands
    below and 38 bands above tick 0, a band being [9 * 10^-e] ticks: the
    rounding and truncation in [computeMinMaxTicksFromExponentAtPriceOne]
    change nothing. *)
Theorem min_max_ticks_closed_form (e : Z) :
  exponentOutOfRange e = false ->
  computeMinMaxTicksFromExponentAtPriceOne e
  = (-162 * 10 ^ (- e), 342 * 10 ^ (- e))
  /\ minTick e < 0 < maxTick e.
Proof.
  intros He. pose proof (exponent_cases e He) as Hrange.
  destruct (K_bounds e Hrange) as [[HK1 HK2] HD].
  unfold minTick, maxTick. rewrite (tick_bounds e Hrange).
  cbn [fst snd]. rewrite HD. split; [f_equal; ring|lia].
Qed.

Lemma min_max_ticks_closed_form_witness :
  exponentOutOfRange (-4) = false
  /\ computeMinMaxTicksFromExponentAtPriceOne (-4)
     = (-162 * 10 ^ (- -4), 342 * 10 ^ (- -4))
  /\ minTick (-4) < 0 < maxTick (-4).
Proof.
  split; [reflexivity|].
  exact (min_max_ticks_closed_form (-4) eq_refl).
Defined.

(** X8. The price [tickToSqrtPrice] computes before taking the square root
    grows with the tick: from a valid tick whose band has a representable
    increment to the next tick the price rises by at least that increment,
    10^(exponent of the band), and it is at least the smallest decimal. *)
Theorem tickToPrice_spacing (t e : Z) :
  exponentOutOfRange e = false ->
  minTick e <= t -> t < maxTick e ->
  -18 <= tickExponent t e ->
  exists price price',
    tickToPrice t e = Ok price
    /\ tickToPrice (t + 1) e = Ok price'
    /\ 1 <= price
    /\ price + 10 ^ (tickExponent t e + 18) <= price'.
Proof.
  intros He Hmin Hmax Hrep.
  pose proof (exponent_cases e He) as Hrange.
  pose proof (tick_bounds e Hrange) as Hb.
  assert (Ht : -18 * ticksPerBand e <= t < 38 * ticksPerBand e)
    by (unfold minTick, maxTick in *; rewrite Hb in *; cbn [fst snd] in *; lia).
  destruct (tickPrice_succ e Hrange t Ht Hrep) as [Hexp Hstep].
  destruct (tickPrice_range e Hrange t ltac:(lia) Hrep) as [_ [HP _]].
  exists (tickPrice t e), (tickPrice (t + 1) e).
  split; [|split; [|split]].
  - apply tickToPrice_formula; [assumption| |assumption].
    unfold minTick, maxTick. rewrite Hb. cbn [fst snd]. lia.
  - apply tickToPrice_formula; [assumption| |lia].
    unfold minTick, maxTick. rewrite Hb. cbn [fst snd]. lia.
  - lia.
  - exact Hstep.
Qed.

Lemma tickToPrice_spacing_witness :
  exponentOutOfRange (-4) = false
  /\ minTick (-4) <= 305450 /\ 305450 < maxTick (-4)
  /\ -18 <= tickExponent 305450 (-4)
  /\ exists price price',
       tickToPrice 305450 (-4) = Ok price
       /\ tickToPrice (305450 + 1) (-4) = Ok price'
       /\ 1 <= price
       /\ price + 10 ^ (tickExponent 305450 (-4) + 18) <= price'.
Proof.
  assert (H1 : minTick (-4) <= 305450) by (vm_compute; discriminate).
  assert (H2 : 305450 < maxTick (-4)) by (vm_compute; reflexivity).
  assert (H3 : -18 <= tickExponent 305450 (-4)) by (vm_compute; discriminate).
  repeat (split; [first [reflexivity|assumption]|]).
  exact (tickToPrice_spacing 305450 (-4) eq_refl H1 H2 H3).
Defined.

Section ExactTicks.

Variable e : Z.
Hypothesis e_range : -12 <= e <= -1.

Local Abbreviation K := (10 ^ (- e)).
Local Abbreviation D := (ticksPerBand e).

Lemma priceToTick_on_tick_above b r :
  0 <= b <= 37 -> 1 <= r < D ->
  priceToTick (10 ^ (e + b + 18) * (K + r)) e = Ok (b * D + r).
Proof.
  intros Hb Hr.
  destruct (K_bounds e e_range) as [[HK1 HK2] HD].
  assert (Hu : 0 < 10 ^ (e + b + 18)) by (apply Z.pow_pos_nonneg; lia).
  assert (HA : 10 ^ (b + 18) = 10 ^ (e + b + 18) * K)
    by (rewrite <- Z.pow_add_r by lia; f_equal; lia).
  assert (HA' : 10 ^ (b + 19) = 10 * 10 ^ (b + 18))
    by (replace (b + 19) with (b + 18 + 1) by ring; apply pow10_succ; lia).
  set (u := 10 ^ (e + b + 18)) in *.
  set (price := u * (K + r)).
  assert (Hprice : 10 ^ (b + 18) < price <= 10 ^ (b + 19)).
  { rewrite HA', HA. unfold price. clearbody u.
    assert (u <= r * u) by nia.
    assert (r * u <= (D - 1) * u) by nia.
    rewrite HD in *. nia. }
  assert (HbD : 0 <= b * D <= 37 * D) by nia.
  assert (HD0 : 0 < D) by lia.
  destruct (ticksToFill_value (D - r) 0 (e + b + 18))
    as [_ Hfill]; [lia|lia|fold u; lia|].
  fold u in Hfill. specialize (Hfill ltac:(lia)).
  apply (priceToTick_up e price b _ e_range Hb Hprice).
  - replace (price - 10 ^ (b + 19)) with (- ((D - r) * u + 0))
      by (rewrite HA', HA, HD; unfold price; ring).
    rewrite ticksToFill_opp.
    replace (e + b + 36) with (e + b + 18 + 18) by ring.
    rewrite Hfill. ring.
  - lia.
Qed.

Lemma priceToTick_on_tick_below b r :
  0 <= b <= 17 -> -18 <= e - b - 1 -> 1 <= r < D ->
  priceToTick (10 ^ (e - b + 17) * (10 * K - r)) e = Ok (- (b * D) - r).
Proof.
  intros Hb Hrep Hr.
  destruct (K_bounds e e_range) as [[HK1 HK2] HD].
  assert (Hu : 0 < 10 ^ (e - b + 17)) by (apply Z.pow_pos_nonneg; lia).
  assert (HA : 10 ^ (17 - b) = 10 ^ (e - b + 17) * K)
    by (rewrite <- Z.pow_add_r by lia; f_equal; lia).
  assert (HA' : 10 ^ (18 - b) = 10 * 10 ^ (17 - b))
    by (replace (18 - b) with (17 - b + 1) by ring; apply pow10_succ; lia).
  set (u := 10 ^ (e - b + 17)) in *.
  set (price := u * (10 * K - r)).
  assert (Hprice : 10 ^ (17 - b) <= price < 10 ^ (18 - b)).
  { rewrite HA', HA. unfold price. clearbody u.
    assert (u <= r * u) by nia.
    assert (r * u <= (D - 1) * u) by nia.
    rewrite HD in *. nia. }
  assert (HbD : 0 <= b * D <= 17 * D) by nia.
  assert (HD0 : 0 < D) by lia.
  destruct (ticksToFill_value (D - r) 0 (e - b + 17))
    as [_ Hfill]; [lia|lia|fold u; lia|].
  fold u in Hfill. specialize (Hfill ltac:(lia)).
  apply (priceToTick_down e price b _ e_range Hb Hprice).
  - replace (price - 10 ^ (17 - b)) with ((D - r) * u + 0)
      by (rewrite HA, HD; unfold price; ring).
    replace (e - 1 - b + 36) with (e - b + 17 + 18) by ring.
    rewrite Hfill. ring.
  - lia.
Qed.

End ExactTicks.

(** X9. [priceToTick] inverts the price computation of [tickToSqrtPrice]
    exactly: for a valid exponent and a valid tick whose band has a
    representable increment, the price computed for the tick (before the
    square root) is mapped back to the same tick. *)
Theorem priceToTick_inverts_tick_price (t e : Z) :
  exponentOutOfRange e = false ->
  minTick e <= t <= maxTick e ->
  -18 <= tickExponent t e ->
  exists price,
    tickToPrice t e = Ok price /\ priceToTick price e = Ok t.
Proof.
  intros He Ht Hrep.
  pose proof (exponent_cases e He) as Hrange.
  exists (tickPrice t e). split.
  { apply tickToPrice_formula; assumption. }
  unfold minTick, maxTick in Ht. rewrite (tick_bounds e Hrange) in Ht.
  cbn [fst snd] in Ht.
  destruct (K_bounds e Hrange) as [[HK1 HK2] HD].
  assert (HD0 : 0 < ticksPerBand e) by lia.
  destruct (Z_le_gt_dec 0 t) as [Hpos|Hneg].
  - destruct (tickPrice_nonneg e Hrange t Hpos) as [_ Hprice].
    pose proof (Z.div_mod t (ticksPerBand e) ltac:(lia)) as Hdm.
    pose proof (Z.mod_pos_bound t (ticksPerBand e) HD0) as Hmod.
    assert (Hb0 : 0 <= t / ticksPerBand e) by (apply Z.div_pos; lia).
    rewrite Hprice.
    set (b := t / ticksPerBand e) in *.
    set (r := t mod ticksPerBand e) in *.
    clearbody b r.
    assert (Hb38 : b <= 38) by nia.
    destruct (Z.eq_dec r 0) as [Hr0|Hr0].
    + rewrite Hr0, Z.add_0_r, <- Z.pow_add_r by lia.
      replace (e + b + 18 + - e) with (b + 18) by ring.
      destruct (Z.eq_dec b 0) as [Hb|Hb].
      * replace t with 0 by nia. subst b. unfold priceToTick.
        replace (Dec.equals (10 ^ (0 + 18)) (Dec.ofInt 1)) with true
          by (vm_compute; reflexivity).
        reflexivity.
      * replace t with (b * ticksPerBand e) by lia.
        replace (10 ^ (b + 18)) with (10 ^ (b + 18) + 0) by ring.
        apply (priceToTick_above_edge e Hrange b 0); [lia|lia|].
        assert (0 < 10 ^ (e + b + 18)) by (apply Z.pow_pos_nonneg; lia). lia.
    + assert (Hb37 : b <= 37) by nia.
      replace t with (b * ticksPerBand e + r) by lia.
      apply (priceToTick_on_tick_above e Hrange b r); lia.
  - assert (Hlt : t < 0) by lia.
    pose proof (tickExponent_neg e Hrange t Hlt) as Hexp.
    pose proof (tickPrice_neg e Hrange t Hlt Hrep) as Hprice.
    pose proof (Z.div_mod (- t) (ticksPerBand e) ltac:(lia)) as Hdm.
    pose proof (Z.mod_pos_bound (- t) (ticksPerBand e) HD0) as Hmod.
    assert (Hb0 : 0 <= - t / ticksPerBand e) by (apply Z.div_pos; lia).
    rewrite Hexp in Hrep. rewrite Hprice.
    set (b := - t / ticksPerBand e) in *.
    set (r := - t mod ticksPerBand e) in *.
    clearbody b r.
    destruct (Z.eq_dec r 0) as [Hr0|Hr0].
    + assert (Hb1 : 1 <= b) by nia.
      rewrite Hr0, Z.sub_0_r.
      replace (10 ^ (e - b + 17) * (10 * 10 ^ (- e)))
        with (10 ^ (18 - b) + 0).
      2:{ replace (18 - b) with (e - b + 17 + 1 + - e) by ring.
          rewrite !Z.pow_add_r by lia. change (10 ^ 1) with 10. ring. }
      replace t with (- (b * ticksPerBand e)) by lia.
      apply (priceToTick_below_edge e Hrange b 0); [lia|lia|lia|].
      assert (0 < 10 ^ (e - b + 17)) by (apply Z.pow_pos_nonneg; lia). lia.
    + replace t with (- (b * ticksPerBand e) - r) by lia.
      apply (priceToTick_on_tick_below e Hrange b r); lia.
Qed.

Lemma priceToTick_inverts_tick_price_witness :
  exponentOutOfRange (-4) = false
  /\ minTick (-4) <= -120001 <= maxTick (-4)
  /\ -18 <= tickExponent (-120001) (-4)
  /\ exists price,
       tickToPrice (-120001) (-4) = Ok price
       /\ priceToTick price (-4) = Ok (-120001).
Proof.
  assert (Ht : minTick (-4) <= -120001 <= maxTick (-4))
    by (split; vm_compute; discriminate).
  assert (Hrep : -18 <= tickExponent (-120001) (-4))
    by (vm_compute; discriminate).
  split; [reflexivity|]. split; [exact Ht|]. split; [exact Hrep|].
  exact (priceToTick_inverts_tick_price (-120001) (-4) eq_refl Ht Hrep).
Defined.

(** X10. The loop of [calculatePriceAndTicksPassed] ends for every price
    within the spot-price bounds (the 128 passes allowed are never used up):
    for a price in the band [(10^j, 10^(j+1)]] above one it stops at the top
    of the band after [j + 1] passes, for a price in the band
    [[10^-(j+1), 10^-j)] below one at the bottom of the band, in both cases
    with the ticks of the bands walked and the additive increment of the last
    band. *)
Theorem calculatePriceAndTicksPassed_band (e j : Z) (price : Dec) :
  exponentOutOfRange e = false ->
  (0 <= j <= 37 -> 10 ^ (j + 18) < price <= 10 ^ (j + 19) ->
   calculatePriceAndTicksPassed price e
   = Ok {| currentPrice := 10 ^ (j + 19);
           ticksPassed := (j + 1) * ticksPerBand e;
           currentAdditiveIncrementInTicks := 10 ^ (e + j + 36) |})
  /\ (0 <= j <= 17 -> 10 ^ (17 - j) <= price < 10 ^ (18 - j) ->
      calculatePriceAndTicksPassed price e
      = Ok {| currentPrice := 10 ^ (17 - j);
              ticksPassed := - (j + 1) * ticksPerBand e;
              currentAdditiveIncrementInTicks := 10 ^ (e - 1 - j + 36) |}).
Proof.
  intros He. pose proof (exponent_cases e He) as Hrange.
  destruct (band_distance e Hrange) as [Hten Hdist].
  split; intros Hj Hprice; unfold calculatePriceAndTicksPassed;
    rewrite Hten; cbn [bind]; rewrite Hdist.
  - assert (H18 : 10 ^ 18 <= 10 ^ (j + 18)) by (apply Z.pow_le_mono_r; lia).
    change (10 ^ 18) with 1000000000000000000 in H18.
    replace (Dec.gt price (Dec.ofInt 1)) with true
      by (symmetry; apply Z.ltb_lt;
          change (Dec.ofInt 1) with 1000000000000000000; lia).
    change (Dec.ofInt 1) with (10 ^ (0 + 18)).
    replace 0 with (0 * ticksPerBand e) at 2 by ring.
    replace e with (e + 0) at 3 by ring.
    rewrite (priceWalk_up e Hrange price j (Z.to_nat (j + 1)))
      by (unfold walkFuel; lia).
    replace (Z.to_nat (j + 1)) with (S (Z.to_nat j)) by lia.
    reflexivity.
  - assert (H18 : 10 ^ (18 - j) <= 10 ^ 18) by (apply Z.pow_le_mono_r; lia).
    change (10 ^ 18) with 1000000000000000000 in H18.
    replace (Dec.gt price (Dec.ofInt 1)) with false
      by (symmetry; apply Z.ltb_ge;
          change (Dec.ofInt 1) with 1000000000000000000; lia).
    change (Dec.ofInt 1) with (10 ^ (18 - 0)).
    replace 0 with (- 0 * ticksPerBand e) at 2 by ring.
    replace (e - 1) with (e - 1 - 0) at 1 by ring.
    rewrite (priceWalk_down e Hrange price j (Z.to_nat (j + 1)))
      by (unfold walkFuel; lia).
    replace (Z.to_nat (j + 1)) with (S (Z.to_nat j)) by lia.
    reflexivity.
Qed.

Lemma calculatePriceAndTicksPassed_band_witness :
  exponentOutOfRange (-4) = false
  /\ calculatePriceAndTicksPassed (5000 * Dec.one) (-4)
     = Ok {| currentPrice := 10 ^ (3 + 19);
             ticksPassed := (3 + 1) * ticksPerBand (-4);
             currentAdditiveIncrementInTicks := 10 ^ (-4 + 3 + 36) |}.
Proof.
  split; [reflexivity|].
  apply (proj1 (calculatePriceAndTicksPassed_band (-4) 3 (5000 * Dec.one)
                  eq_refl)).
  - lia.
  - split; vm_compute; [reflexivity|discriminate].
Defined.

(** X11. What [priceToTick] returns: tick 0 for price one, whatever the
    exponent; otherwise a tick is only returned for a valid exponent and a
    price within the spot-price bounds, and it lies within the tick range of
    the exponent. *)
Theorem priceToTick_result (price : Dec) (e : Z) (t : Int) :
  priceToTick price e = Ok t ->
  (price = Dec.ofInt 1 /\ t = 0)
  \/ (exponentOutOfRange e = false
      /\ minSpotPrice <= price <= maxSpotPrice
      /\ minTick e <= t <= maxTick e).
Proof.
  unfold priceToTick.
  destruct (Dec.equals price (Dec.ofInt 1)) eqn:Hone.
  { intros H. inversion H. left. split; [|reflexivity].
    now apply Z.eqb_eq in Hone. }
  destruct (Dec.isNegative price); [discriminate|]. cbn [guard bind].
  destruct (Dec.gt price maxSpotPrice) eqn:Hmax; [discriminate|].
  destruct (Dec.lt price minSpotPrice) eqn:Hmin; [discriminate|].
  cbn [orb guard bind].
  destruct (exponentOutOfRange e) eqn:He; [discriminate|]. cbn [guard bind].
  destruct (calculatePriceAndTicksPassed price e) as [w| |]; [|discriminate..].
  cbn [bind]. unfold minTick, maxTick.
  destruct (computeMinMaxTicksFromExponentAtPriceOne e) as [lo hi].
  cbn [fst snd].
  match goal with
  | |- context [guard (?a || ?b)] => destruct a eqn:Hlo; [discriminate|];
                                      destruct b eqn:Hhi; [discriminate|]
  end.
  cbn [orb guard bind]. intros H. inversion H. subst t. right.
  apply Z.ltb_ge in Hmax, Hmin, Hlo, Hhi.
  repeat split; lia.
Qed.

Lemma priceToTick_result_witness :
  priceToTick (5000 * Dec.one) (-4) = Ok 310000
  /\ ((5000 * Dec.one = Dec.ofInt 1 /\ 310000 = 0)
      \/ (exponentOutOfRange (-4) = false
          /\ minSpotPrice <= 5000 * Dec.one <= maxSpotPrice
          /\ minTick (-4) <= 310000 <= maxTick (-4))).
Proof.
  assert (H : priceToTick (5000 * Dec.one) (-4) = Ok 310000)
    by (vm_compute; reflexivity).
  split; [exact H|].
  exact (priceToTick_result (5000 * Dec.one) (-4) 310000 H).
Defined.

(** X12. [estimateInitialTickBounds] clamps its sqrt-price estimate for a
    token0 input with [minSpotPrice], the lower bound of the price and not of
    its square root, and squares the result: whenever the estimate is clamped
    the square rounds to zero, below the spot-price bounds, and the function
    throws instead of returning a tick bound, for every exponent.  The
    operands are taken below 2^256 in absolute value, so every decimal
    computed on the way is far inside the range of the unit library. *)
Theorem estimateInitialTickBounds_clamped (tokenIn : Coin)
    (token0Denom : string) (currentSqrtPrice currentTickLiquidity : Dec)
    (exponentAtPriceOne : Z) :
  denom tokenIn = token0Denom ->
  amount tokenIn <> 0 ->
  Z.abs (amount tokenIn) < 2 ^ 192 ->
  Z.abs currentSqrtPrice < 2 ^ 256 ->
  Z.abs currentTickLiquidity < 2 ^ 256 ->
  Dec.sub currentSqrtPrice
    (Dec.quo currentTickLiquidity (Dec.ofInt (amount tokenIn)))
  <= minSpotPrice ->
  estimateInitialTickBounds tokenIn token0Denom currentSqrtPrice
    currentTickLiquidity exponentAtPriceOne
  = Throw (Error "Price not within bounds").
Proof.
  pose proof one_pos as H1.
  intros Hdenom Hnz _ _ _ Hclamp. unfold estimateInitialTickBounds.
  replace (String.eqb (denom tokenIn) token0Denom) with true
    by (symmetry; now apply String.eqb_eq).
  unfold Dec.quoChecked, Dec.isZero.
  replace (Dec.ofInt (amount tokenIn) =? 0) with false
    by (symmetry; apply Z.eqb_neq; unfold Dec.ofInt; nia).
  cbn [bind]. unfold Dec.gt.
  replace (minSpotPrice <? _) with false
    by (symmetry; apply Z.ltb_ge; exact Hclamp).
  replace (Dec.pow minSpotPrice 2) with 0 by (vm_compute; reflexivity).
  reflexivity.
Qed.

Lemma sqrt_even_band_table k :
  -9 <= k <= 19 -> approxSqrt (10 ^ (2 * k + 18)) = 10 ^ (k + 18).
Proof.
  intros H.
  assert (Hall : forallb
                   (fun k => approxSqrt (10 ^ (2 * k + 18)) =? 10 ^ (k + 18))
                   (map (fun n => Z.of_nat n - 9) (seq 0 29)) = true)
    by (vm_compute; reflexivity).
  rewrite forallb_forall in Hall.
  apply Z.eqb_eq. apply Hall.
  apply in_map_iff. exists (Z.to_nat (k + 9)). split; [lia|].
  apply in_seq. lia.
Qed.

(** X13. At the first tick of an even band, [2k] bands away from tick 0,
    the sqrt-price is the exact power of ten [10^k] (Newton's iteration
    settles on it), and squaring it and asking for the tick gives the tick
    back. *)
Theorem even_band_round_trip (e k : Z) :
  exponentOutOfRange e = false ->
  -9 <= k <= 19 ->
  -18 <= tickExponent (2 * k * ticksPerBand e) e ->
  tickToSqrtPrice (2 * k * ticksPerBand e) e = Ok (10 ^ (k + 18))
  /\ priceToTick (Dec.pow (10 ^ (k + 18)) 2) e = Ok (2 * k * ticksPerBand e).
Proof.
  intros He Hk Hrep.
  pose proof (exponent_cases e He) as Hrange.
  destruct (K_bounds e Hrange) as [[HK1 HK2] HD].
  assert (HD0 : 0 < ticksPerBand e) by lia.
  assert (Hsq : Dec.pow (10 ^ (k + 18)) 2 = 10 ^ (2 * k + 18)).
  { rewrite pow_2. unfold Dec.mul, Dec.chopPrecisionAndRound.
    replace (10 ^ (k + 18) * 10 ^ (k + 18)) with (10 ^ (2 * k + 18) * Dec.one).
    - apply chopRound_exact. exact one_pos.
    - change Dec.one with (10 ^ 18). rewrite <- !Z.pow_add_r by lia.
      f_equal. ring. }
  destruct (Z.eq_dec k 0) as [->|Hk0].
  { split; [reflexivity|]. rewrite Hsq. unfold priceToTick.
    replace (Dec.equals (10 ^ (2 * 0 + 18)) (Dec.ofInt 1)) with true
      by (vm_compute; reflexivity).
    reflexivity. }
  assert (Hquot : Z.quot (2 * k * ticksPerBand e) (ticksPerBand e) = 2 * k)
    by (apply Z.quot_mul; lia).
  assert (HP : tickPrice (2 * k * ticksPerBand e) e = 10 ^ (2 * k + 18)).
  { unfold tickPrice. rewrite Hquot. zring. }
  split.
  - rewrite tickToSqrtPrice_formula; [|assumption| |assumption].
    + rewrite HP. f_equal. now apply sqrt_even_band_table.
    + unfold minTick, maxTick. rewrite (tick_bounds e Hrange). cbn [fst snd].
      nia.
  - rewrite Hsq.
    destruct (Z_lt_le_dec 0 k) as [Hpos|Hneg].
    + replace (10 ^ (2 * k + 18)) with (10 ^ (2 * k + 18) + 0) by ring.
      apply (priceToTick_above_edge e Hrange (2 * k) 0); [lia|lia|].
      assert (0 < 10 ^ (e + 2 * k + 18)) by (apply Z.pow_pos_nonneg; lia).
      lia.
    + unfold tickExponent in Hrep. rewrite Hquot in Hrep.
      replace (2 * k * ticksPerBand e <? 0) with true in Hrep
        by (symmetry; apply Z.ltb_lt; nia).
      replace (10 ^ (2 * k + 18)) with (10 ^ (18 - (- (2 * k))) + 0)
        by (rewrite Z.add_0_r; f_equal; ring).
      replace (2 * k * ticksPerBand e)
        with (- (- (2 * k) * ticksPerBand e)) by ring.
      apply (priceToTick_below_edge e Hrange (- (2 * k)) 0); [lia|lia|lia|].
      assert (0 < 10 ^ (e - - (2 * k) + 17))
        by (apply Z.pow_pos_nonneg; lia).
      lia.
Qed.

Lemma even_band_round_trip_witness :
  exponentOutOfRange (-4) = false
  /\ -9 <= 2 <= 19
  /\ -18 <= tickExponent (2 * 2 * ticksPerBand (-4)) (-4)
  /\ tickToSqrtPrice (2 * 2 * ticksPerBand (-4)) (-4) = Ok (10 ^ (2 + 18))
  /\ priceToTick (Dec.pow (10 ^ (2 + 18)) 2) (-4)
     = Ok (2 * 2 * ticksPerBand (-4)).
Proof.
  assert (Hk : -9 <= 2 <= 19) by lia.
  assert (Hrep : -18 <= tickExponent (2 * 2 * ticksPerBand (-4)) (-4))
    by (vm_compute; discriminate).
  split; [reflexivity|]. split; [exact Hk|]. split; [exact Hrep|].
  exact (even_band_round_trip (-4) 2 eq_refl Hk Hrep).
Defined.

Lemma estimateInitialTickBounds_clamped_witness :
  estimateInitialTickBounds {| denom := "uosmo"; amount := 1 |} "uosmo"
    Dec.one (5 * Dec.one) (-4)
  = Throw (Error "Price not within bounds").
Proof.
  apply (estimateInitialTickBounds_clamped
           {| denom := "uosmo"; amount := 1 |} "uosmo"
           Dec.one (5 * Dec.one) (-4)).
  - reflexivity.
  - cbn [amount]. lia.
  - vm_compute. reflexivity.
  - vm_compute. reflexivity.
  - vm_compute. reflexivity.
  - vm_compute. discriminate.
Defined.

(** ** [quotes.ts] *)

(** X15. A pool whose current sqrt-price already equals the sqrt-price
    limit quotes 0: the loop of [calcOutGivenIn] is not entered, so no tick is
    read and nothing is thrown, whatever the amount. *)
Theorem calcOutGivenIn_at_limit
    zfo ofz s2t tokenIn tokenDenom0 poolLiquidity tickDepths curTickIndex
    curTick curSqrtPrice precisionFactorAtPriceOne swapFee priceLimit :
  curSqrtPrice
  = fst (fst (swapSetup zfo ofz tokenIn tokenDenom0 poolLiquidity curTick
                curSqrtPrice swapFee priceLimit)) ->
  calcOutGivenIn zfo ofz s2t tokenIn tokenDenom0 poolLiquidity tickDepths
    curTickIndex curTick curSqrtPrice precisionFactorAtPriceOne swapFee
    priceLimit
  = Ok 0.
Proof.
  intros Hlimit.
  unfold calcOutGivenIn, calcOutGivenInState.
  unfold swapSetup in *. cbn [fst] in Hlimit.
  set (limit := approxSqrt _) in *.
  assert (Hstop : forall tick0 : Int,
             swapContinues limit
               {| amountRemaining := Dec.ofInt (amount tokenIn);
                  amountCalculated := Dec.ofInt 0;
                  sqrtPrice := curSqrtPrice;
                  tick := tick0;
                  liquidity := poolLiquidity;
                  feeGrowthGlobal := Dec.ofInt 0 |} = false).
  { intros tick0. unfold swapContinues. cbn [sqrtPrice].
    rewrite <- Hlimit. unfold Dec.equals. rewrite Z.eqb_refl.
    apply andb_false_r. }
  destruct (ticksFrom tickDepths curTickIndex); cbn [swapLoop];
    rewrite Hstop; reflexivity.
Qed.

Lemma calcOutGivenIn_at_limit_witness :
  calcOutGivenIn ZeroForOneStrategy OneForZeroStrategy sqrtPriceToTick
    {| denom := "usdc"; amount := 42000000 |} "eth" fixtureLiquidity []
    0 310000 (approxSqrt maxSpotPrice) (-4) (Dec.ofInt 0) (Dec.ofInt 0)
  = Ok 0.
Proof.
  apply (calcOutGivenIn_at_limit ZeroForOneStrategy OneForZeroStrategy
           sqrtPriceToTick {| denom := "usdc"; amount := 42000000 |} "eth"
           fixtureLiquidity [] 0 310000 (approxSqrt maxSpotPrice) (-4)
           (Dec.ofInt 0) (Dec.ofInt 0)).
  vm_compute. reflexivity.
Defined.

(** ** The concentrated-liquidity pool class *)

Lemma validateDenoms_swap raw a b :
  ConcentratedLiquidityPool.validateDenoms raw [a; b] = Ok tt
  <-> ConcentratedLiquidityPool.validateDenoms raw [b; a] = Ok tt.
Proof.
  assert (Hone : forall a b,
             ConcentratedLiquidityPool.validateDenoms raw [a; b] = Ok tt ->
             ConcentratedLiquidityPool.validateDenoms raw [b; a] = Ok tt).
  { clear a b. intros a b.
    unfold ConcentratedLiquidityPool.validateDenoms.
    cbn [nodup forallb In].
    destruct (in_dec string_dec a [b]) as [Hin|Hin];
      cbn [List.length Nat.eqb negb]; [discriminate|].
    destruct (in_dec string_dec b [a]) as [Hin'|Hin'].
    { exfalso. apply Hin. destruct Hin' as [->|[]]. now left. }
    cbn [List.length Nat.eqb negb].
    destruct (ConcentratedLiquidityPool.hasPoolAsset raw a);
      destruct (ConcentratedLiquidityPool.hasPoolAsset raw b);
      cbn [andb negb]; intros H; try discriminate; reflexivity. }
  split; apply Hone.
Qed.

(** X16. The two spot prices of a concentrated pool are each other's
    mirror: [getSpotPriceInOverOut] for a pair of denominations returns a
    price exactly when [getSpotPriceOutOverIn] returns it for the exchanged
    pair.  A price is returned only for two different denominations of the
    pool, and it is the square of the current sqrt-price when the base (the
    token out of in-over-out) is token0. *)
Theorem spot_price_mirror (raw : ConcentratedLiquidityPool.Raw)
    (tokenInDenom tokenOutDenom : string) (price : Dec) :
  (ConcentratedLiquidityPool.getSpotPriceInOverOut raw tokenInDenom
     tokenOutDenom = Ok price
   <-> ConcentratedLiquidityPool.getSpotPriceOutOverIn raw tokenOutDenom
         tokenInDenom = Ok price)
  /\ (ConcentratedLiquidityPool.getSpotPriceInOverOut raw tokenInDenom
        tokenOutDenom = Ok price ->
      tokenInDenom <> tokenOutDenom
      /\ ConcentratedLiquidityPool.hasPoolAsset raw tokenInDenom = true
      /\ ConcentratedLiquidityPool.hasPoolAsset raw tokenOutDenom = true
      /\ (tokenOutDenom = ConcentratedLiquidityPool.token0 raw ->
          price = Dec.pow (ConcentratedLiquidityPool.current_sqrt_price raw) 2)).
Proof.
  unfold ConcentratedLiquidityPool.getSpotPriceInOverOut,
    ConcentratedLiquidityPool.getSpotPriceOutOverIn.
  split.
  - pose proof (validateDenoms_swap raw tokenInDenom tokenOutDenom) as Hswap.
    destruct (ConcentratedLiquidityPool.validateDenoms raw
                [tokenInDenom; tokenOutDenom]) as [[]| |] eqn:H1;
      destruct (ConcentratedLiquidityPool.validateDenoms raw
                  [tokenOutDenom; tokenInDenom]) as [[]| |] eqn:H2;
      cbn [bind]; try reflexivity;
      try (destruct Hswap as [Hs1 Hs2];
           first [specialize (Hs1 eq_refl)|specialize (Hs2 eq_refl)];
           discriminate);
      split; discriminate.
  - unfold ConcentratedLiquidityPool.validateDenoms.
    cbn [nodup forallb In].
    destruct (in_dec string_dec tokenInDenom [tokenOutDenom]) as [Hin|Hin];
      cbn [List.length Nat.eqb negb bind]; [discriminate|].
    destruct (ConcentratedLiquidityPool.hasPoolAsset raw tokenInDenom);
      destruct (ConcentratedLiquidityPool.hasPoolAsset raw tokenOutDenom);
      cbn [andb negb bind]; try discriminate.
    intros H. split; [|split; [reflexivity|split; [reflexivity|]]].
    + intros ->. apply Hin. now left.
    + intros ->. unfold ConcentratedLiquidityPool.spotPrice in H.
      rewrite String.eqb_refl in H. now inversion H.
Qed.

Lemma spot_price_mirror_witness :
  ConcentratedLiquidityPool.getSpotPriceInOverOut
    {| ConcentratedLiquidityPool.id := "1";
       ConcentratedLiquidityPool.token0 := "eth";
       ConcentratedLiquidityPool.token1 := "usdc";
       ConcentratedLiquidityPool.current_sqrt_price := 70 * Dec.one |}
    "usdc" "eth" = Ok (4900 * Dec.one)
  /\ ConcentratedLiquidityPool.getSpotPriceOutOverIn
       {| ConcentratedLiquidityPool.id := "1";
          ConcentratedLiquidityPool.token0 := "eth";
          ConcentratedLiquidityPool.token1 := "usdc";
          ConcentratedLiquidityPool.current_sqrt_price := 70 * Dec.one |}
       "eth" "usdc" = Ok (4900 * Dec.one).
Proof.
  assert (H : ConcentratedLiquidityPool.getSpotPriceInOverOut
                {| ConcentratedLiquidityPool.id := "1";
                   ConcentratedLiquidityPool.token0 := "eth";
                   ConcentratedLiquidityPool.token1 := "usdc";
                   ConcentratedLiquidityPool.current_sqrt_price := 70 * Dec.one |}
                "usdc" "eth" = Ok (4900 * Dec.one))
    by (vm_compute; reflexivity).
  split; [exact H|].
  exact (proj1 (proj1 (spot_price_mirror _ "usdc" "eth" (4900 * Dec.one))) H).
Defined.

(** X17. [getLimitAmountByTokenIn] of a concentrated pool never returns a
    limit: it throws for a denomination the pool does not have and throws
    "Not implemented" otherwise.  Hence the router's check for an illiquid
    direct route throws whenever the best of two or more routes is a single
    concentrated pool. *)
Theorem concentrated_limit_never_returns
    (raw : ConcentratedLiquidityPool.Raw) (denom : string) :
  (exists msg,
      ConcentratedLiquidityPool.getLimitAmountByTokenIn raw denom
      = Throw (Error msg))
  /\ forall (route0 route1 : Route) (rest : list Route) (tokenIn : Coin),
       pools route0 = [concentratedRoutablePool raw] ->
       exists msg,
         dropIlliquidDirectRoute (route0 :: route1 :: rest) tokenIn
         = Throw (Error msg).
Proof.
  assert (Hthrows : forall denom,
             exists msg,
               ConcentratedLiquidityPool.getLimitAmountByTokenIn raw denom
               = Throw (Error msg)).
  { clear denom. intros denom.
    unfold ConcentratedLiquidityPool.getLimitAmountByTokenIn,
      ConcentratedLiquidityPool.validateDenoms.
    cbn [nodup In]. destruct (in_dec string_dec denom []) as [[]|_].
    cbn [List.length Nat.eqb negb forallb].
    destruct (ConcentratedLiquidityPool.hasPoolAsset raw denom);
      cbn [andb negb bind]; eexists; reflexivity. }
  split; [apply Hthrows|].
  intros route0 route1 rest tokenIn Hpools.
  unfold dropIlliquidDirectRoute. rewrite Hpools.
  cbn [concentratedRoutablePool getLimitAmountByTokenIn].
  match goal with
  | |- context [ConcentratedLiquidityPool.getLimitAmountByTokenIn raw ?d] =>
      destruct (Hthrows d) as [msg Hmsg]
  end.
  rewrite Hmsg. cbn [bind]. now exists msg.
Qed.

(** ** The router's constructor *)

Lemma liftPreferredPools_from preferredPoolIds sortedPools :
  forall preferred others,
    fold_left
      (fun pools pool =>
         if isPreferredPool preferredPoolIds pool then pool :: pools
         else pools ++ [pool])
      sortedPools (rev preferred ++ others)
    = rev (preferred ++ filter (isPreferredPool preferredPoolIds) sortedPools)
      ++ others
      ++ filter (fun pool => negb (isPreferredPool preferredPoolIds pool))
           sortedPools.
Proof.
  induction sortedPools as [|pool sortedPools IH]; intros preferred others.
  - cbn [fold_left filter]. now rewrite !app_nil_r.
  - cbn [fold_left filter].
    destruct (isPreferredPool preferredPoolIds pool); cbn [negb].
    + replace (pool :: rev preferred ++ others)
        with (rev (preferred ++ [pool]) ++ others)
        by (rewrite rev_app_distr; reflexivity).
      rewrite IH. now rewrite <- app_assoc.
    + rewrite <- app_assoc. rewrite IH. now rewrite <- app_assoc.
Qed.

(** X18. The constructor of the router lifts the preferred pools to the
    front in the reverse of their sorted order ([unshift] puts each before
    the ones lifted earlier), followed by the other pools in sorted order;
    no pool is lost or duplicated. *)
Theorem liftPreferredPools_order (preferredPoolIds : option (list string))
    (sortedPools : list RoutablePool) :
  liftPreferredPools preferredPoolIds sortedPools
  = rev (filter (isPreferredPool preferredPoolIds) sortedPools)
    ++ filter (fun pool => negb (isPreferredPool preferredPoolIds pool))
         sortedPools
  /\ Permutation sortedPools (liftPreferredPools preferredPoolIds sortedPools).
Proof.
  assert (Heq : liftPreferredPools preferredPoolIds sortedPools
                = rev (filter (isPreferredPool preferredPoolIds) sortedPools)
                  ++ filter (fun pool =>
                               negb (isPreferredPool preferredPoolIds pool))
                       sortedPools).
  { unfold liftPreferredPools.
    apply (liftPreferredPools_from preferredPoolIds sortedPools [] []). }
  split; [exact Heq|].
  rewrite Heq.
  transitivity (filter (isPreferredPool preferredPoolIds) sortedPools
                ++ filter (fun pool =>
                             negb (isPreferredPool preferredPoolIds pool))
                     sortedPools).
  - clear Heq. induction sortedPools as [|pool sortedPools IH];
      [constructor|].
    cbn [filter]. destruct (isPreferredPool preferredPoolIds pool); cbn [negb].
    + cbn [app]. now constructor.
    + apply Permutation_cons_app. exact IH.
  - apply Permutation_app_tail. apply Permutation_rev.
Qed.

(** ** Keys of the liquidity-net query store *)

Lemma splitDash_cons s :
  exists part parts,
    QueryLiquidityNetInDirection.splitDash s = part :: parts
    /\ part = QueryLiquidityNetInDirection.beforeDash s.
Proof.
  induction s as [|c s IH]; cbn [QueryLiquidityNetInDirection.splitDash
                                 QueryLiquidityNetInDirection.beforeDash].
  - now exists EmptyString, [].
  - destruct (Ascii.eqb c QueryLiquidityNetInDirection.dash).
    + now exists EmptyString, (QueryLiquidityNetInDirection.splitDash s).
    + destruct IH as [part [parts [-> ->]]].
      now exists (String c (QueryLiquidityNetInDirection.beforeDash s)), parts.
Qed.

Lemma splitDash_encode poolId rest :
  QueryLiquidityNetInDirection.hasDash poolId = false ->
  QueryLiquidityNetInDirection.splitDash (poolId ++ "-" ++ rest)
  = poolId :: QueryLiquidityNetInDirection.splitDash rest.
Proof.
  induction poolId as [|c poolId IH]; intros Hdash.
  - reflexivity.
  - cbn [QueryLiquidityNetInDirection.hasDash] in Hdash.
    apply orb_false_iff in Hdash. destruct Hdash as [Hc Hdash].
    specialize (IH Hdash).
    cbn [String.append QueryLiquidityNetInDirection.splitDash] in IH |- *.
    rewrite Hc, IH. reflexivity.
Qed.

Lemma beforeDash_id s :
  (QueryLiquidityNetInDirection.hasDash s = false ->
   QueryLiquidityNetInDirection.beforeDash s = s)
  /\ (QueryLiquidityNetInDirection.hasDash s = true ->
      (String.length (QueryLiquidityNetInDirection.beforeDash s)
       < String.length s)%nat).
Proof.
  induction s as [|c s [IH1 IH2]];
    cbn [QueryLiquidityNetInDirection.hasDash
         QueryLiquidityNetInDirection.beforeDash String.length].
  - split; [reflexivity|discriminate].
  - destruct (Ascii.eqb c QueryLiquidityNetInDirection.dash); cbn [orb String.length].
    + split; [discriminate|lia].
    + split; intros H.
      * now rewrite (IH1 H).
      * specialize (IH2 H). lia.
Qed.

(** X19. Decoding an encoded key gives the pool id back when the pool id
    has no dash, and the token-in denomination up to its first dash: the
    round trip is the identity exactly for denominations without a dash, and
    a denomination with a dash comes back cut short. *)
Theorem decodeKey_encodeKey (poolId tokenInDenom : string) :
  QueryLiquidityNetInDirection.hasDash poolId = false ->
  QueryLiquidityNetInDirection.decodeKey
    (QueryLiquidityNetInDirection.encodeKey poolId tokenInDenom)
  = {| QueryLiquidityNetInDirection.poolId := poolId;
       QueryLiquidityNetInDirection.tokenInDenom :=
         Some (QueryLiquidityNetInDirection.beforeDash tokenInDenom) |}
  /\ (QueryLiquidityNetInDirection.beforeDash tokenInDenom = tokenInDenom
      <-> QueryLiquidityNetInDirection.hasDash tokenInDenom = false).
Proof.
  intros Hdash. split.
  - unfold QueryLiquidityNetInDirection.decodeKey,
      QueryLiquidityNetInDirection.encodeKey.
    rewrite (splitDash_encode poolId tokenInDenom Hdash).
    destruct (splitDash_cons tokenInDenom) as [part [parts [-> ->]]].
    reflexivity.
  - destruct (beforeDash_id tokenInDenom) as [H1 H2]. split.
    + intros Heq.
      destruct (QueryLiquidityNetInDirection.hasDash tokenInDenom);
        [|reflexivity].
      specialize (H2 eq_refl). rewrite Heq in H2. lia.
    + exact H1.
Qed.

Lemma decodeKey_encodeKey_witness :
  QueryLiquidityNetInDirection.hasDash "1" = false
  /\ QueryLiquidityNetInDirection.decodeKey
       (QueryLiquidityNetInDirection.encodeKey "1" "factory/osmo1-abc/coin")
     = {| QueryLiquidityNetInDirection.poolId := "1";
          QueryLiquidityNetInDirection.tokenInDenom :=
            Some (QueryLiquidityNetInDirection.beforeDash
                    "factory/osmo1-abc/coin") |}
  /\ (QueryLiquidityNetInDirection.beforeDash "factory/osmo1-abc/coin"
      = "factory/osmo1-abc/coin"
      <-> QueryLiquidityNetInDirection.hasDash "factory/osmo1-abc/coin"
          = false).
Proof.
  split; [reflexivity|].
  exact (decodeKey_encodeKey "1" "factory/osmo1-abc/coin" eq_refl).
Defined.

(** ** A liquidity position *)

(** X20. [claimableIncentives] never reads the incentives of the response:
    once the field is present it maps the claimable fees, so it returns what
    [claimableFees] returns, whatever the incentives are. *)
Theorem claimableIncentives_are_fees (CoinPretty : Type)
    (coinPretty : string -> string -> CoinPretty)
    (fees incentives : list (string * string)) :
  LiquidityPositionById.claimableIncentives CoinPretty coinPretty
    (Some {| LiquidityPositionById.claimable_fees := Some fees;
             LiquidityPositionById.claimable_incentives := Some incentives |})
  = LiquidityPositionById.claimableFees CoinPretty coinPretty
      (Some {| LiquidityPositionById.claimable_fees := Some fees;
               LiquidityPositionById.claimable_incentives := Some incentives |})
  /\ LiquidityPositionById.claimableIncentives CoinPretty coinPretty
       (Some {| LiquidityPositionById.claimable_fees := Some fees;
                LiquidityPositionById.claimable_incentives := Some incentives |})
     = Ok (map (fun '(denom, amount) => coinPretty denom amount) fees).
Proof.
  unfold LiquidityPositionById.claimableIncentives,
    LiquidityPositionById.claimableFees.
  cbn [LiquidityPositionById.claimable_fees
       LiquidityPositionById.claimable_incentives].
  split; reflexivity.
Qed.
